(** * jargs.hpp: a shallow embedding of the command line parser

    The development follows [jargs.hpp]: the [Flag] record and its six
    constructors, [Parser::add], [Parser::add_help], [Parser::parse] and
    [Parser::print_help_page].

    - [std::string_view] is [string]; its [size_t] positions and counts are
      integers in [Z], with [npos] the largest 64-bit value.
    - The process is a [World]: whatever the callbacks of the caller capture
      and mutate, plus what has been written to [std::cout] and [std::cerr].
      A computation either returns with a world or ends the process through
      [std::exit] with a status ([Outcome]).
    - [argv] is the list of its strings; the loop variable [i] of [parse] is
      the position in that list, so the tokens still to be read are a suffix
      of it. *)

From Stdlib Require Import String Ascii List ZArith Lia Bool.
Import ListNotations.

#[local] Open Scope string_scope.
#[local] Open Scope Z_scope.

(** ** [std::string_view] *)

Module sv.

(** [static constexpr size_type npos = size_type(-1)], with a 64-bit
    [size_t]. *)
Definition size_max : Z := 2 ^ 64 - 1.
Definition npos : Z := size_max.

(** Arithmetic on [size_t] wraps around. *)
Definition wrap (z : Z) : Z := z mod 2 ^ 64.

Definition size (s : string) : Z := Z.of_nat (String.length s).

Definition empty (s : string) : bool := size s =? 0.

(** [s.starts_with(p)] for a string [p]. *)
Fixpoint starts_with (s p : string) {struct p} : bool :=
  match p with
  | EmptyString => true
  | String b p' =>
      match s with
      | EmptyString => false
      | String a s' => Ascii.eqb a b && starts_with s' p'
      end
  end.

(** [s.starts_with(ch)] for a character [ch]. *)
Definition starts_with_char (s : string) (ch : ascii) : bool :=
  match s with
  | EmptyString => false
  | String a _ => Ascii.eqb a ch
  end.

(** [s.find(ch)]: the position of the first [ch], counted from [pos], or
    [npos]. *)
Fixpoint find_from (s : string) (ch : ascii) (pos : Z) : Z :=
  match s with
  | EmptyString => npos
  | String a s' => if Ascii.eqb a ch then pos else find_from s' ch (pos + 1)
  end.

Definition find (s : string) (ch : ascii) : Z := find_from s ch 0.

(** [s.contains(ch)] is [s.find(ch) != npos]. *)
Definition contains (s : string) (ch : ascii) : bool :=
  negb (find s ch =? npos).

(** [s.substr(pos, count)]: the characters [pos, pos + rcount) where
    [rcount] is the smaller of [count] and [size() - pos].  (It throws when
    [pos > size()]; [parse] never calls it so.) *)
Definition substr (s : string) (pos count : Z) : string :=
  let rcount := Z.min count (size s - pos) in
  String.substring (Z.to_nat pos) (Z.to_nat rcount) s.

(** [s.substr(pos)]: [count] defaults to [npos]. *)
Definition substr_from (s : string) (pos : Z) : string := substr s pos npos.

(** [std::string(n, ch)]. *)
Definition fill (n : Z) (ch : ascii) : string :=
  string_of_list_ascii (List.repeat ch (Z.to_nat n)).

End sv.

(** The newline character of ['\n']. *)
Definition nl : string := String (ascii_of_nat 10) EmptyString.

(** The character ['\0']. *)
Definition NUL : ascii := Ascii.zero.

(** ** The process: callbacks, streams and [std::exit] *)

Section Jargs.

(** What the callbacks of the calling program capture and mutate. *)
Variable State : Type.

Record World : Type := mkWorld {
  user : State;
  cout : string;
  cerr : string
}.

Inductive Outcome (X : Type) : Type :=
| Returns (x : X) (w : World)
| Exits (status : Z) (w : World).
Arguments Returns {X} x w.
Arguments Exits {X} status w.

Definition M (X : Type) : Type := World -> Outcome X.

Definition ret {X : Type} (x : X) : M X := fun w => Returns x w.

Definition bind {X Y : Type} (m : M X) (k : X -> M Y) : M Y :=
  fun w =>
    match m w with
    | Returns x w' => k x w'
    | Exits status w' => Exits status w'
    end.

Notation "x <- m ;; k" := (bind m (fun x => k))
  (at level 61, m at next level, right associativity).
Notation "m ;; k" := (bind m (fun _ => k))
  (at level 61, right associativity).

(** [std::cout << s] and [std::cerr << s]. *)
Definition put_cout (s : string) : M unit :=
  fun w => Returns tt (mkWorld (user w) (cout w ++ s) (cerr w)).

Definition put_cerr (s : string) : M unit :=
  fun w => Returns tt (mkWorld (user w) (cout w) (cerr w ++ s)).

(** [std::exit(status)] does not return. *)
Definition exit {X : Type} (status : Z) : M X := fun w => Exits status w.

(** ** [struct Flag] *)

(** The [std::function] stored in a flag.  The closure that [add_help]
    builds captures [this] and reads the flags of the parser when it is
    called, so it is kept apart from the functions of the caller. *)
Inductive Action : Type :=
| Callback (f : string -> M unit)
| HelpPage (usage : string).

Record Flag : Type := mkFlag {
  short_name : ascii;
  long_name : string;
  description : string;
  expects_value : bool;
  action : Action
}.

(** With arg: short and long, long, short. *)
Definition Flag_short_long_arg (c : ascii) (s desc : string) (f : string -> M unit) : Flag :=
  mkFlag c s desc true (Callback f).
Definition Flag_long_arg (s desc : string) (f : string -> M unit) : Flag :=
  Flag_short_long_arg NUL s desc f.
Definition Flag_short_arg (c : ascii) (desc : string) (f : string -> M unit) : Flag :=
  Flag_short_long_arg c EmptyString desc f.

(** Without arg: short and long, long, short.  The stored function drops
    its [optarg]. *)
Definition Flag_short_long (c : ascii) (s desc : string) (f : M unit) : Flag :=
  mkFlag c s desc false (Callback (fun _optarg => f)).
Definition Flag_long (s desc : string) (f : M unit) : Flag :=
  Flag_short_long NUL s desc f.
Definition Flag_short (c : ascii) (desc : string) (f : M unit) : Flag :=
  Flag_short_long c EmptyString desc f.

(** ** [class Parser] *)

Record Parser : Type := mkParser { flags : list Flag }.

Definition new_parser : Parser := mkParser [].

(** [flags.push_back(std::move(f))]. *)
Definition add (f : Flag) (p : Parser) : Parser := mkParser (flags p ++ [f]).

(** [add({'h', "help", "Print help", [usage, this]() { ... }})]. *)
Definition add_help (usage : string) (p : Parser) : Parser :=
  add (mkFlag "h"%char "help" "Print help" false (HelpPage usage)) p.

(** *** [Parser::print_help_page] *)

Definition lhs_max : Z := 32.

(** The [std::stringstream lhs] of one flag. *)
Definition help_lhs (f : Flag) : string :=
  let lhs := "  " in
  let lhs := if Ascii.eqb (short_name f) NUL then lhs
             else lhs ++ "-" ++ String (short_name f) EmptyString in
  let lhs := if negb (Ascii.eqb (short_name f) NUL) && negb (sv.empty (long_name f))
             then lhs ++ ", " else lhs in
  let lhs := if sv.size (long_name f) =? 0 then lhs
             else lhs ++ "--" ++ long_name f in
  if expects_value f then lhs ++ " ARG" else lhs.

(** What one iteration of the loop over the flags writes to [std::cout]. *)
Definition help_entry (f : Flag) : string :=
  let lhs := help_lhs f in
  if sv.size lhs <=? lhs_max
  then lhs ++ sv.fill (lhs_max - sv.size lhs) " " ++ " " ++ description f ++ nl
  else lhs ++ nl ++ sv.fill lhs_max " " ++ " " ++ description f ++ nl.

Fixpoint print_help_entries (fs : list Flag) : M unit :=
  match fs with
  | [] => ret tt
  | f :: fs' => put_cout (help_entry f) ;; print_help_entries fs'
  end.

Definition print_help_page (p : Parser) (usage : string) : M unit :=
  put_cout ("Usage: " ++ usage ++ nl) ;;
  print_help_entries (flags p).

(** [spec->action(optarg)].  The closure of [add_help] prints the help page
    of the parser it was added to and exits with status 1. *)
Definition invoke (p : Parser) (spec : Flag) (optarg : string) : M unit :=
  match action spec with
  | Callback f => f optarg
  | HelpPage usage => print_help_page p usage ;; exit 1
  end.

(** *** [Parser::parse] *)

(** [std::find_if(flags.begin(), flags.end(), pred)]; [None] is
    [flags.end()]. *)
Fixpoint find_if (pred : Flag -> bool) (fs : list Flag) : option Flag :=
  match fs with
  | [] => None
  | f :: fs' => if pred f then Some f else find_if pred fs'
  end.

Definition find_long (p : Parser) (flag : string) : option Flag :=
  find_if (fun f => String.eqb (long_name f) flag) (flags p).

Definition find_short (p : Parser) (c : ascii) : option Flag :=
  find_if (fun f => Ascii.eqb (short_name f) c) (flags p).

(** The two tests on [arg]. *)
Definition is_long_token (arg : string) : bool :=
  (3 <=? sv.size arg) && sv.starts_with arg "--".

Definition is_short_token (arg : string) : bool :=
  negb (is_long_token arg) && (2 <=? sv.size arg) && sv.starts_with_char arg "-".

(** [arg.substr(2, arg.find('=')-2)]. *)
Definition long_ident (arg : string) : string :=
  sv.substr arg 2 (sv.wrap (sv.find arg "=" - 2)).

(** [arg.substr(arg.find('=')+1)]. *)
Definition long_optarg (arg : string) : string :=
  sv.substr_from arg (sv.wrap (sv.find arg "=" + 1)).

(** The diagnostics: a line on [std::cerr], then [std::exit(1)]. *)
Definition unknown_long {X : Type} (prog flag : string) : M X :=
  put_cerr (prog ++ ": unknown option: '--" ++ flag ++ "'" ++ nl) ;; exit 1.

Definition unknown_short {X : Type} (prog : string) (c : ascii) : M X :=
  put_cerr (prog ++ ": unknown option: '-" ++ String c EmptyString ++ "'" ++ nl) ;; exit 1.

Definition missing_long {X : Type} (prog flag : string) : M X :=
  put_cerr (prog ++ ": option '--" ++ flag ++ "' requires an argument" ++ nl) ;; exit 1.

Definition missing_short {X : Type} (prog : string) (c : ascii) : M X :=
  put_cerr (prog ++ ": option '-" ++ String c EmptyString ++ "' requires an argument" ++ nl) ;; exit 1.

(** The first branch of the loop body, for a token [arg = argv[i]] with
    [rest] the tokens after it.  The result tells whether [++i] was
    evaluated, that is, whether the head of [rest] was taken as the
    value. *)
Definition parse_long (p : Parser) (prog arg : string) (rest : list string) : M bool :=
  let flag := long_ident arg in
  match find_long p flag with
  | None => unknown_long prog flag
  | Some spec =>
      if expects_value spec then
        if sv.contains arg "=" then
          let optarg := long_optarg arg in
          if sv.size optarg =? 0 then missing_long prog flag
          else invoke p spec optarg ;; ret false
        else
          match rest with
          | [] => missing_long prog flag              (* i == argc-1 *)
          | next :: _ => invoke p spec next ;; ret true
          end
      else invoke p spec EmptyString ;; ret false
  end.

(** The loop over [j] of the second branch.  [flag] is what is left of the
    token from position [j] on: its head is [flag[j]], [j] is the last
    position exactly when its tail is empty, and the tail is
    [flag.substr(j+1)]. *)
Fixpoint parse_short (p : Parser) (prog flag : string) (rest : list string) : M bool :=
  match flag with
  | EmptyString => ret false                          (* j == flag.size() *)
  | String c flag' =>
      match find_short p c with
      | None => unknown_short prog c
      | Some spec =>
          if expects_value spec then
            if negb (sv.size flag' =? 0) then        (* j != flag.size()-1 *)
              invoke p spec flag' ;; ret false        (* break *)
            else
              match rest with
              | [] => missing_short prog c            (* i == argc-1 *)
              | next :: _ =>
                  (* [c] is the last character: the loop ends after [j++] *)
                  invoke p spec next ;; ret true
              end
          else invoke p spec EmptyString ;; parse_short p prog flag' rest
      end
  end.

(** The body of the loop over [i]. *)
Definition parse_token (p : Parser) (prog arg : string) (rest : list string) : M bool :=
  if is_long_token arg then parse_long p prog arg rest
  else if (2 <=? sv.size arg) && sv.starts_with_char arg "-" then
    parse_short p prog (sv.substr_from arg 1) rest
  else ret false.

(** The loop over [i], on the tokens [argv[i..argc-1]]: after the body
    comes [i++], on top of the [++i] of a body that took the next token. *)
Fixpoint parse_loop (p : Parser) (prog : string) (args : list string) : M unit :=
  match args with
  | [] => ret tt                                      (* i == argc *)
  | arg :: rest =>
      consumed <- parse_token p prog arg rest ;;
      if consumed : bool then
        match rest with
        | [] => ret tt
        | _ :: rest' => parse_loop p prog rest'
        end
      else parse_loop p prog rest
  end.

(** [parse(argc, argv)]: [argv[0]] is only used in the diagnostics. *)
Definition parse (p : Parser) (argv : list string) : M unit :=
  match argv with
  | [] => ret tt
  | prog :: args => parse_loop p prog args
  end.

End Jargs.

Arguments mkWorld {State} user cout cerr.
Arguments user {State} w.
Arguments cout {State} w.
Arguments cerr {State} w.
Arguments Returns {State X} x w.
Arguments Exits {State X} status w.
Arguments ret {State X} x w.
Arguments bind {State X Y} m k w.
Arguments put_cout {State} s w.
Arguments put_cerr {State} s w.
Arguments exit {State X} status w.
Arguments Callback {State} f.
Arguments HelpPage {State} usage.
Arguments mkFlag {State} short_name long_name description expects_value action.
Arguments short_name {State} f.
Arguments long_name {State} f.
Arguments description {State} f.
Arguments expects_value {State} f.
Arguments action {State} f.
Arguments Flag_short_long_arg {State} c s desc f.
Arguments Flag_long_arg {State} s desc f.
Arguments Flag_short_arg {State} c desc f.
Arguments Flag_short_long {State} c s desc f.
Arguments Flag_long {State} s desc f.
Arguments Flag_short {State} c desc f.
Arguments mkParser {State} flags.
Arguments flags {State} p.
Arguments new_parser {State}.
Arguments add {State} f p.
Arguments add_help {State} usage p.
Arguments help_lhs {State} f.
Arguments help_entry {State} f.
Arguments print_help_entries {State} fs w.
Arguments print_help_page {State} p usage w.
Arguments invoke {State} p spec optarg w.
Arguments find_if {State} pred fs.
Arguments find_long {State} p flag.
Arguments find_short {State} p c.
Arguments unknown_long {State X} prog flag w.
Arguments unknown_short {State X} prog c w.
Arguments missing_long {State X} prog flag w.
Arguments missing_short {State X} prog c w.
Arguments parse_long {State} p prog arg rest w.
Arguments parse_short {State} p prog flag rest w.
Arguments parse_token {State} p prog arg rest w.
Arguments parse_loop {State} p prog args w.
Arguments parse {State} p argv w.

Declare Scope jargs_scope.
Delimit Scope jargs_scope with jargs.
Notation "x <- m ;; k" := (bind m (fun x => k))
  (at level 61, m at next level, right associativity) : jargs_scope.
Notation "m ;; k" := (bind m (fun _ => k))
  (at level 61, right associativity) : jargs_scope.
#[local] Open Scope jargs_scope.

(** Two computations are the same when they do the same to every world. *)
Definition same {State X : Type} (m1 m2 : M State X) : Prop :=
  forall w, m1 w = m2 w.
Infix "=~" := same (at level 70, no associativity) : jargs_scope.

(** [fire p specs]: the callbacks of [specs], one after the other, each with
    an empty argument. *)
Fixpoint fire {State : Type} (p : Parser State) (specs : list (Flag State)) : M State unit :=
  match specs with
  | [] => ret tt
  | spec :: specs' => invoke p spec EmptyString ;; fire p specs'
  end.

(** [combined p cs specs]: every character of [cs] is the short name of a
    flag that takes no value, and [specs] are the flags that the lookup of
    [parse] finds for them, in the order of the characters. *)
Inductive combined {State : Type} (p : Parser State) : string -> list (Flag State) -> Prop :=
| combined_nil : combined p EmptyString []
| combined_cons (c : ascii) (cs : string) (spec : Flag State) (specs : list (Flag State)) :
    find_short p c = Some spec ->
    expects_value spec = false ->
    combined p cs specs ->
    combined p (String c cs) (spec :: specs).

(** [occurs ch s]: the character [ch] is one of [s]. *)
Fixpoint occurs (ch : ascii) (s : string) : bool :=
  match s with
  | EmptyString => false
  | String a s' => Ascii.eqb a ch || occurs ch s'
  end.

(** The size of a [std::string_view] is a [size_t]. *)
Definition valid (s : string) : Prop := sv.size s <= sv.size_max.

(** How the loop of [parse] goes on after the body, as in [parse_loop]. *)
Definition continue {State : Type} (p : Parser State) (prog : string)
    (consumed : bool) (rest : list string) : M State unit :=
  if consumed then
    match rest with
    | [] => ret tt
    | _ :: rest' => parse_loop p prog rest'
    end
  else parse_loop p prog rest.

(** A long option as the command line spells it: ["--name"], or
    ["--name=value"] with the value attached. *)
Definition long_option (name : string) (attached : option string) : string :=
  "--" ++ name ++ match attached with
                  | Some value => "=" ++ value
                  | None => ""
                  end.

(** ** The programs of the repository *)

(** *** The usage example of the header: [-f, --flag], [--filename ARG],
    [-p ARG] and the help flag. *)
Module Example.

Record Vars : Type := mkVars { flag : bool; filename : string }.

Definition set_flag : M Vars unit :=
  fun w => Returns tt (mkWorld (mkVars true (filename (user w))) (cout w) (cerr w)).

Definition set_filename (optarg : string) : M Vars unit :=
  fun w => Returns tt (mkWorld (mkVars (flag (user w)) optarg) (cout w) (cerr w)).

Definition print_something (optarg : string) : M Vars unit :=
  put_cout (optarg ++ nl).

Definition flag_f : Flag Vars := Flag_short_long "f" "flag" "Set flag" set_flag.
Definition flag_filename : Flag Vars :=
  Flag_long_arg "filename" "Specify filename" set_filename.
Definition flag_p : Flag Vars := Flag_short_arg "p" "Print something" print_something.

Definition parser : Parser Vars :=
  add_help "example [args]" (add flag_p (add flag_filename (add flag_f new_parser))).

(** [bool flag = false; std::string_view filename;], nothing written. *)
Definition start : World Vars :=
  mkWorld (mkVars false EmptyString) EmptyString EmptyString.

(** [std::cout << b] for a [bool]. *)
Definition show_bool (b : bool) : string := if b then "1" else "0".

(** The two lines that [main] writes after [parse]. *)
Definition report : M Vars unit :=
  fun w =>
    (put_cout ("flag: " ++ show_bool (flag (user w)) ++ nl) ;;
     put_cout ("filename: " ++ filename (user w) ++ nl))%jargs w.

(** [main]: the locals are initialised, the flags are added, [argv] is
    parsed and the report is written.  The streams are those of the
    process. *)
Definition main (argv : list string) : M Vars unit :=
  fun w =>
    (parse parser argv ;; report)%jargs (mkWorld (mkVars false EmptyString) (cout w) (cerr w)).

End Example.

(** *** The second example: [-a, --ay], [--bee], [-c], [-d, --dee ARG],
    [--ee ARG], [-f ARG] and the help flag. *)
Module Example2.

Definition a_action : M bool unit :=
  fun w => Returns tt (mkWorld true (cout w ++ "a" ++ nl) (cerr w)).

Definition flag_a : Flag bool := Flag_short_long "a" "ay" "A option" a_action.
Definition flag_bee : Flag bool := Flag_long "bee" "B option" (put_cout ("b" ++ nl)).
Definition flag_c : Flag bool := Flag_short "c" "C option" (put_cout ("c" ++ nl)).
Definition flag_d : Flag bool :=
  Flag_short_long_arg "d" "dee" "D option" (fun optarg => put_cout ("d: " ++ optarg ++ nl)).
Definition flag_ee : Flag bool :=
  Flag_long_arg "ee" "E option" (fun optarg => put_cout ("e: " ++ optarg ++ nl)).
Definition flag_f : Flag bool :=
  Flag_short_arg "f" "F option" (fun optarg => put_cout ("f: " ++ optarg ++ nl)).

Definition parser : Parser bool :=
  add_help "example [-abc] [-def ARG]"
    (add flag_f (add flag_ee (add flag_d (add flag_c (add flag_bee (add flag_a
      new_parser)))))).

(** [bool a_flag = false;], nothing written. *)
Definition start : World bool := mkWorld false EmptyString EmptyString.

(** The line that [main] writes after [parse]. *)
Definition report : M bool unit :=
  fun w => put_cout ("a_flag: " ++ (if user w then "1" else "0") ++ nl) w.

(** [main] of the second example. *)
Definition main (argv : list string) : M bool unit :=
  fun w => (parse parser argv ;; report)%jargs (mkWorld false (cout w) (cerr w)).

End Example2.

(** *** A parser whose only flag has a long left-hand column. *)
Module Wide.

Definition flag_wide : Flag unit :=
  Flag_long_arg "output-directory-for-reports" "Where reports go" (fun _ => ret tt).

Definition parser : Parser unit := add flag_wide new_parser.

Definition start : World unit := mkWorld tt EmptyString EmptyString.

End Wide.

(** ** The diagnostics *)

(** The lines that [parse] writes to [std::cerr] before [std::exit(1)]. *)
Inductive diagnostic (prog : string) : string -> Prop :=
| diagnostic_unknown_long (name : string) :
    diagnostic prog (prog ++ ": unknown option: '--" ++ name ++ "'" ++ nl)
| diagnostic_unknown_short (c : ascii) :
    diagnostic prog (prog ++ ": unknown option: '-" ++ String c "" ++ "'" ++ nl)
| diagnostic_missing_long (name : string) :
    diagnostic prog (prog ++ ": option '--" ++ name ++ "' requires an argument" ++ nl)
| diagnostic_missing_short (c : ascii) :
    diagnostic prog (prog ++ ": option '-" ++ String c "" ++ "' requires an argument" ++ nl).

(** The same lines as the specification spells them: its last form, for a
    short option, reads ['- c'] with a space after the dash. *)
Inductive documented_diagnostic (prog : string) : string -> Prop :=
| documented_unknown_long (name : string) :
    documented_diagnostic prog (prog ++ ": unknown option: '--" ++ name ++ "'" ++ nl)
| documented_unknown_short (c : ascii) :
    documented_diagnostic prog (prog ++ ": unknown option: '-" ++ String c "" ++ "'" ++ nl)
| documented_missing_long (name : string) :
    documented_diagnostic prog (prog ++ ": option '--" ++ name ++ "' requires an argument" ++ nl)
| documented_missing_short (c : ascii) :
    documented_diagnostic prog (prog ++ ": option '- " ++ String c "" ++ "' requires an argument" ++ nl).

(** The process ended inside a callback of a registered flag. *)
Definition callback_exit {State : Type} (p : Parser State) (status : Z) (w' : World State) : Prop :=
  exists spec optarg w0, In spec (flags p) /\ invoke p spec optarg w0 = Exits status w'.

(** The process was ended by [parse]: a diagnostic is the last thing on
    [std::cerr] and the status is 1. *)
Definition diagnostic_exit {State : Type} (prog : string) (status : Z) (w' : World State) : Prop :=
  status = 1 /\
  exists line w0, diagnostic prog line /\ w' = mkWorld (user w0) (cout w0) (cerr w0 ++ line).

(** ** The help page as the specification describes it *)

(** The spellings of a flag: [-c] when it has a short name, [--name] when it
    has a long one. *)
Definition spellings {State : Type} (f : Flag State) : list string :=
  let short := "-" ++ String (short_name f) "" in
  let long := "--" ++ long_name f in
  List.app (if Ascii.eqb (short_name f) NUL then [] else [short])
           (if String.eqb (long_name f) "" then [] else [long]).

(** The left-hand column: two spaces, the spellings joined by [", "], and
    [" ARG"] for a flag that takes a value. *)
Definition left_column {State : Type} (f : Flag State) : string :=
  "  " ++ String.concat ", " (spellings f) ++ (if expects_value f then " ARG" else "").

Definition column_width : Z := 32.

(** The entry of a flag as the specification words it: a column that does
    not fit stands alone and the description comes on the next line,
    indented to the width of the column. *)
Definition documented_entry {State : Type} (f : Flag State) : string :=
  let column := left_column f in
  if sv.size column <=? column_width
  then column ++ sv.fill (column_width - sv.size column) " " ++ " " ++ description f ++ nl
  else column ++ nl ++ sv.fill column_width " " ++ description f ++ nl.

(** The entry with the description of the second case moved one place to the
    right, under the descriptions of the first case. *)
Definition aligned_entry {State : Type} (f : Flag State) : string :=
  let column := left_column f in
  if sv.size column <=? column_width
  then column ++ sv.fill (column_width - sv.size column) " " ++ " " ++ description f ++ nl
  else column ++ nl ++ sv.fill (column_width + 1) " " ++ description f ++ nl.

(** The page: the usage line, then the entries in the order of the flags. *)
Definition help_text {State : Type} (entry : Flag State -> string)
    (usage : string) (fs : list (Flag State)) : string :=
  "Usage: " ++ usage ++ nl ++ String.concat "" (map entry fs).

(** ** Calls *)

(** [run p calls]: the callbacks of [calls], one after the other, each with
    its argument. *)
Fixpoint run {State : Type} (p : Parser State) (calls : list (Flag State * string))
    : M State unit :=
  match calls with
  | [] => ret tt
  | (spec, optarg) :: calls' => invoke p spec optarg ;; run p calls'
  end.

(** A call that [parse] may make: the flag is registered, and a flag that
    takes no value gets the empty argument. *)
Definition regular_call {State : Type} (p : Parser State) (call : Flag State * string) : Prop :=
  In (fst call) (flags p) /\ (expects_value (fst call) = false -> snd call = "").

(** A token that is no option for [parse]. *)
Definition is_other_token (arg : string) : bool :=
  negb (is_long_token arg) && negb (is_short_token arg).

(** The parser after [add] for each flag of [more], in that order. *)
Definition add_all {State : Type} (more : list (Flag State)) (p : Parser State) : Parser State :=
  fold_left (fun q g => add g q) more p.

(** The flag that [add_help] registers. *)
Definition help_flag {State : Type} (usage : string) : Flag State :=
  mkFlag "h"%char "help" "Print help" false (HelpPage usage).

(** [grows w w']: from [w] to [w'] the error stream is left alone and the
    output stream is only added to. *)
Definition grows {State : Type} (w w' : World State) : Prop :=
  cerr w' = cerr w /\ exists out, cout w' = cout w ++ out.

(** ** Proof steps for closed instances *)

(** [valid s] for a literal [s]. *)
Ltac size_fits := vm_compute; discriminate.

(** [combined p cs specs] for a literal [cs] and a given parser. *)
Ltac resolve_combined := repeat (econstructor; try reflexivity).

(** ** Facts on [std::string_view] *)

Lemma append_nil_r (s : string) : s ++ "" = s.
Proof. induction s as [|a s IH]; simpl; [reflexivity | now rewrite IH]. Qed.

Lemma append_assoc (a b c : string) : (a ++ b) ++ c = a ++ b ++ c.
Proof. induction a as [|x a IH]; simpl; [reflexivity | now rewrite IH]. Qed.

Lemma size_nonneg (s : string) : 0 <= sv.size s.
Proof. unfold sv.size. lia. Qed.

Lemma size_String (a : ascii) (s : string) : sv.size (String a s) = 1 + sv.size s.
Proof. unfold sv.size. simpl String.length. lia. Qed.

Lemma size_append (a b : string) : sv.size (a ++ b) = sv.size a + sv.size b.
Proof.
  induction a as [|x a IH]; [reflexivity|].
  simpl append. rewrite !size_String, IH. lia.
Qed.

Lemma size_0_iff (s : string) : sv.size s = 0 <-> s = "".
Proof.
  destruct s as [|a s]; split; intros H; try reflexivity; discriminate.
Qed.

Lemma substring_whole (s : string) : substring 0 (String.length s) s = s.
Proof. induction s as [|a s IH]; simpl; [reflexivity | now rewrite IH]. Qed.

Lemma substring_head (a b : string) : substring 0 (String.length a) (a ++ b) = a.
Proof.
  induction a as [|x a IH]; simpl.
  - destruct b; reflexivity.
  - now rewrite IH.
Qed.

Lemma substring_skip (a b : string) (m : nat) :
  substring (String.length a) m (a ++ b) = substring 0 m b.
Proof. induction a as [|x a IH]; simpl; [reflexivity | exact IH]. Qed.

Lemma find_from_absent (ch : ascii) (s : string) (pos : Z) :
  occurs ch s = false -> sv.find_from s ch pos = sv.npos.
Proof.
  revert pos. induction s as [|a s IH]; intros pos H; simpl in *; [reflexivity|].
  apply orb_false_iff in H as [Ha Hs]. rewrite Ha. now apply IH.
Qed.

Lemma find_from_first (ch : ascii) (a b : string) (pos : Z) :
  occurs ch a = false -> sv.find_from (a ++ String ch b) ch pos = pos + sv.size a.
Proof.
  revert pos. induction a as [|x a IH]; intros pos H; simpl in *.
  - rewrite Ascii.eqb_refl. unfold sv.size. simpl. lia.
  - apply orb_false_iff in H as [Hx Ha]. rewrite Hx, IH by assumption.
    rewrite size_String. lia.
Qed.

(** [substr] on a string split at [pos]. *)
Lemma substr_split (a b : string) (count : Z) :
  0 <= count ->
  sv.substr (a ++ b) (sv.size a) count
  = substring 0 (Z.to_nat (Z.min count (sv.size b))) b.
Proof.
  intros Hc. unfold sv.substr. rewrite size_append.
  replace (sv.size a + sv.size b - sv.size a) with (sv.size b) by lia.
  unfold sv.size at 1. rewrite Nat2Z.id. apply substring_skip.
Qed.

Lemma substr_from_split (a b : string) :
  valid (a ++ b) -> sv.substr_from (a ++ b) (sv.size a) = b.
Proof.
  unfold valid, sv.substr_from. rewrite size_append. intros Hv.
  rewrite substr_split by (unfold sv.npos, sv.size_max; lia).
  pose proof (size_nonneg a). rewrite Z.min_r by (unfold sv.npos; lia).
  unfold sv.size. rewrite Nat2Z.id. apply substring_whole.
Qed.

Lemma wrap_small (z : Z) : 0 <= z <= sv.size_max -> sv.wrap z = z.
Proof. unfold sv.wrap, sv.size_max. intros H. apply Z.mod_small. lia. Qed.

(** ** The tokens of [parse] *)

(** The cuts of [parse] on a token [pre ++ name ++ "=" ++ value], where
    [pre] stands for the dashes. *)
Section Cuts.

Variables pre name value : string.
Hypothesis pre_plain : occurs "=" pre = false.
Hypothesis name_plain : occurs "=" name = false.

Let attached : string := pre ++ name ++ String "=" value.
Let detached : string := pre ++ name.

Lemma occurs_append (ch : ascii) (a b : string) :
  occurs ch (a ++ b) = occurs ch a || occurs ch b.
Proof. induction a as [|x a IH]; simpl; [reflexivity | now rewrite IH, orb_assoc]. Qed.

Lemma find_attached : sv.find attached "=" = sv.size pre + sv.size name.
Proof.
  unfold sv.find, attached. rewrite <- append_assoc.
  rewrite find_from_first, size_append; [lia|].
  now rewrite occurs_append, pre_plain, name_plain.
Qed.

Lemma find_detached : sv.find detached "=" = sv.npos.
Proof.
  unfold sv.find, detached. apply find_from_absent.
  now rewrite occurs_append, pre_plain, name_plain.
Qed.

Lemma size_attached : sv.size attached = sv.size pre + sv.size name + 1 + sv.size value.
Proof. unfold attached. rewrite !size_append, size_String. lia. Qed.

Lemma ident_of_attached :
  valid attached ->
  sv.substr attached (sv.size pre) (sv.wrap (sv.find attached "=" - sv.size pre)) = name.
Proof.
  intros Hv. red in Hv. rewrite size_attached in Hv.
  pose proof (size_nonneg pre). pose proof (size_nonneg name).
  pose proof (size_nonneg value).
  rewrite find_attached.
  replace (sv.size pre + sv.size name - sv.size pre) with (sv.size name) by lia.
  rewrite wrap_small by lia.
  unfold attached. rewrite substr_split by lia.
  rewrite size_append, size_String, Z.min_l by lia.
  unfold sv.size. rewrite Nat2Z.id. apply substring_head.
Qed.

Lemma optarg_of_attached :
  valid attached ->
  sv.substr_from attached (sv.wrap (sv.find attached "=" + 1)) = value.
Proof.
  intros Hv. pose proof Hv as Hv'. red in Hv'. rewrite size_attached in Hv'.
  pose proof (size_nonneg pre). pose proof (size_nonneg name).
  pose proof (size_nonneg value).
  rewrite find_attached, wrap_small by lia.
  assert (E : attached = ((pre ++ name) ++ "=") ++ value)
    by (unfold attached; now rewrite !append_assoc).
  rewrite E in Hv |- *.
  replace (sv.size pre + sv.size name + 1) with (sv.size ((pre ++ name) ++ "="))
    by (rewrite !size_append; change (sv.size "=") with 1; lia).
  now apply substr_from_split.
Qed.

Lemma contains_of_attached : valid attached -> sv.contains attached "=" = true.
Proof.
  intros Hv. red in Hv. rewrite size_attached in Hv.
  pose proof (size_nonneg value).
  unfold sv.contains. rewrite find_attached.
  apply negb_true_iff, Z.eqb_neq. unfold sv.npos. lia.
Qed.

Lemma ident_of_detached :
  valid detached -> 2 <= sv.size pre ->
  sv.substr detached (sv.size pre) (sv.wrap (sv.find detached "=" - 2)) = name.
Proof.
  intros Hv Hp. red in Hv. unfold detached in Hv. rewrite size_append in Hv.
  pose proof (size_nonneg name).
  rewrite find_detached.
  rewrite wrap_small by (unfold sv.npos, sv.size_max in *; lia).
  unfold detached.
  rewrite substr_split by (unfold sv.npos, sv.size_max; lia).
  rewrite Z.min_r by (unfold sv.npos; lia).
  unfold sv.size. rewrite Nat2Z.id. apply substring_whole.
Qed.

Lemma contains_of_detached : sv.contains detached "=" = false.
Proof. unfold sv.contains. rewrite find_detached. now rewrite Z.eqb_refl. Qed.

End Cuts.

(** A long option with its value attached is ["--" ++ name ++ "=" ++ value]:
    the identifier that [parse] cuts out of it is [name], and the value is
    what follows the first ['=']. *)
Lemma long_ident_attached (name value : string) :
  valid ("--" ++ name ++ "=" ++ value) -> occurs "=" name = false ->
  long_ident ("--" ++ name ++ "=" ++ value) = name.
Proof. intros Hv Hn. exact (ident_of_attached "--" name value eq_refl Hn Hv). Qed.

Lemma long_optarg_attached (name value : string) :
  valid ("--" ++ name ++ "=" ++ value) -> occurs "=" name = false ->
  long_optarg ("--" ++ name ++ "=" ++ value) = value.
Proof. intros Hv Hn. exact (optarg_of_attached "--" name value eq_refl Hn Hv). Qed.

Lemma contains_attached (name value : string) :
  valid ("--" ++ name ++ "=" ++ value) -> occurs "=" name = false ->
  sv.contains ("--" ++ name ++ "=" ++ value) "=" = true.
Proof. intros Hv Hn. exact (contains_of_attached "--" name value eq_refl Hn Hv). Qed.

(** A long option without a value in its token is ["--" ++ name]. *)
Lemma long_ident_detached (name : string) :
  valid ("--" ++ name) -> occurs "=" name = false ->
  long_ident ("--" ++ name) = name.
Proof.
  intros Hv Hn.
  exact (ident_of_detached "--" name eq_refl Hn Hv ltac:(vm_compute; discriminate)).
Qed.

Lemma contains_detached (name : string) :
  occurs "=" name = false -> sv.contains ("--" ++ name) "=" = false.
Proof. intros Hn. exact (contains_of_detached "--" name eq_refl Hn). Qed.

(** ["--" ++ s] passes the first test of [parse] exactly when [s] is not
    empty. *)
Lemma is_long_token_dashes (s : string) :
  is_long_token ("--" ++ s) = negb (sv.size s =? 0).
Proof.
  unfold is_long_token.
  replace (sv.size ("--" ++ s)) with (2 + sv.size s)
    by (simpl append; rewrite !size_String; lia).
  change (sv.starts_with ("--" ++ s) "--") with true. rewrite andb_true_r.
  pose proof (size_nonneg s).
  destruct (Z.eqb_spec (sv.size s) 0) as [E|E]; simpl negb;
    [apply Z.leb_gt | apply Z.leb_le]; lia.
Qed.

(** What the second branch of [parse] loops over. *)
Lemma short_flag_chars (cs : string) :
  valid ("-" ++ cs) -> sv.substr_from ("-" ++ cs) 1 = cs.
Proof. intros Hv. exact (substr_from_split "-" cs Hv). Qed.

(** ** Computations *)

Section Computations.

Context {State : Type}.

Lemma same_refl {X : Type} (m : M State X) : m =~ m.
Proof. intros w. reflexivity. Qed.

Lemma same_sym {X : Type} (m1 m2 : M State X) : m1 =~ m2 -> m2 =~ m1.
Proof. intros H w. symmetry. apply H. Qed.

Lemma same_trans {X : Type} (m1 m2 m3 : M State X) :
  m1 =~ m2 -> m2 =~ m3 -> m1 =~ m3.
Proof. intros H1 H2 w. rewrite H1. apply H2. Qed.

Lemma bind_assoc {X Y Z : Type} (m : M State X) (k : X -> M State Y) (h : Y -> M State Z) :
  (y <- (x <- m ;; k x) ;; h y) =~ (x <- m ;; y <- k x ;; h y).
Proof. intros w. unfold bind. destruct (m w); reflexivity. Qed.

Lemma bind_same {X Y : Type} (m1 m2 : M State X) (k1 k2 : X -> M State Y) :
  m1 =~ m2 -> (forall x, k1 x =~ k2 x) -> (x <- m1 ;; k1 x) =~ (x <- m2 ;; k2 x).
Proof. intros Hm Hk w. unfold bind. rewrite Hm. destruct (m2 w); [apply Hk | reflexivity]. Qed.

End Computations.

(** ** The lookup of [parse] *)

Section Lookup.

Context {State : Type}.
Variable pred : Flag State -> bool.

Lemma find_if_none (fs : list (Flag State)) :
  find_if pred fs = None <-> (forall f, In f fs -> pred f = false).
Proof.
  induction fs as [|g fs IH]; simpl.
  - split; [intros _ f [] | reflexivity].
  - destruct (pred g) eqn:E.
    + split; [discriminate|]. intros H. rewrite (H g) in E by now left. discriminate.
    + rewrite IH. split.
      * intros H f [<-|Hf]; [exact E | now apply H].
      * intros H f Hf. apply H. now right.
Qed.

(** The first match wins. *)
Lemma find_if_first (before after : list (Flag State)) (f : Flag State) :
  (forall g, In g before -> pred g = false) -> pred f = true ->
  find_if pred (before ++ f :: after)%list = Some f.
Proof.
  intros Hb Hf. induction before as [|g before IH]; simpl.
  - now rewrite Hf.
  - rewrite (Hb g) by now left. apply IH. intros h Hh. apply Hb. now right.
Qed.

Lemma find_if_some (fs : list (Flag State)) (f : Flag State) :
  find_if pred fs = Some f ->
  exists before after,
    fs = (before ++ f :: after)%list /\ (forall g, In g before -> pred g = false) /\ pred f = true.
Proof.
  induction fs as [|g fs IH]; simpl; [discriminate|].
  destruct (pred g) eqn:E.
  - intros [= <-]. exists [], fs. repeat split; [intros h [] | exact E].
  - intros H. destruct (IH H) as (before & after & -> & Hb & Hf).
    exists (g :: before), after. repeat split; [|exact Hf].
    intros h [<-|Hh]; [exact E | now apply Hb].
Qed.

Lemma find_if_in (fs : list (Flag State)) (f : Flag State) :
  find_if pred fs = Some f -> In f fs /\ pred f = true.
Proof.
  intros H. destruct (find_if_some fs f H) as (before & after & -> & _ & Hf).
  split; [|exact Hf]. apply in_or_app. right. now left.
Qed.

End Lookup.

(** A name is unregistered when no flag carries it. *)
Lemma find_long_none {State : Type} (p : Parser State) (name : string) :
  find_long p name = None <-> (forall f, In f (flags p) -> long_name f <> name).
Proof.
  unfold find_long. rewrite find_if_none. split; intros H f Hf.
  - apply String.eqb_neq. now apply H.
  - apply String.eqb_neq. now apply H.
Qed.

Lemma find_short_none {State : Type} (p : Parser State) (c : ascii) :
  find_short p c = None <-> (forall f, In f (flags p) -> short_name f <> c).
Proof.
  unfold find_short. rewrite find_if_none. split; intros H f Hf.
  - apply Ascii.eqb_neq. now apply H.
  - apply Ascii.eqb_neq. now apply H.
Qed.

(** ** One token of [parse] *)

Section Tokens.

Context {State : Type}.
Variable p : Parser State.
Variable prog : string.

Lemma parse_loop_cons (arg : string) (rest : list string) :
  parse_loop p prog (arg :: rest)
  =~ (consumed <- parse_token p prog arg rest ;; continue p prog consumed rest).
Proof. intros w. reflexivity. Qed.

Lemma parse_loop_long (arg : string) (rest : list string) :
  is_long_token arg = true ->
  parse_loop p prog (arg :: rest)
  =~ (consumed <- parse_long p prog arg rest ;; continue p prog consumed rest).
Proof. intros H w. rewrite parse_loop_cons. unfold bind, parse_token. now rewrite H. Qed.

Lemma parse_loop_short (cs : string) (rest : list string) :
  valid ("-" ++ cs) -> is_short_token ("-" ++ cs) = true ->
  parse_loop p prog (("-" ++ cs) :: rest)
  =~ (consumed <- parse_short p prog cs rest ;; continue p prog consumed rest).
Proof.
  intros Hv H w. rewrite parse_loop_cons. unfold bind, parse_token.
  unfold is_short_token in H.
  apply andb_true_iff in H as [H H3]. apply andb_true_iff in H as [H1 H2].
  apply negb_true_iff in H1. rewrite H1, H2, H3. simpl andb. cbv iota.
  now rewrite short_flag_chars.
Qed.

Lemma parse_loop_skip (arg : string) (rest : list string) :
  is_long_token arg = false -> is_short_token arg = false ->
  parse_loop p prog (arg :: rest) =~ parse_loop p prog rest.
Proof.
  intros Hl Hs w. rewrite parse_loop_cons. unfold bind, parse_token.
  unfold is_short_token in Hs. rewrite Hl in *. simpl negb in Hs.
  rewrite andb_true_l in Hs. now rewrite Hs.
Qed.

(** *** Long options *)

Lemma long_option_ident (name : string) (attached : option string) :
  valid (long_option name attached) -> occurs "=" name = false ->
  long_ident (long_option name attached) = name.
Proof.
  destruct attached as [value|]; unfold long_option; intros Hv Hn.
  - now apply long_ident_attached.
  - rewrite append_nil_r in *. now apply long_ident_detached.
Qed.

Lemma long_option_is_long (name : string) (attached : option string) :
  name <> "" \/ attached <> None -> is_long_token (long_option name attached) = true.
Proof.
  intros H. unfold long_option. rewrite is_long_token_dashes.
  apply negb_true_iff, Z.eqb_neq. rewrite size_0_iff.
  destruct name as [|a name]; [|discriminate].
  destruct attached as [value|]; [discriminate|]. destruct H as [H|H]; now elim H.
Qed.

Lemma long_unknown (name : string) (attached : option string) (rest : list string) :
  valid (long_option name attached) -> occurs "=" name = false ->
  name <> "" \/ attached <> None ->
  find_long p name = None ->
  parse_loop p prog (long_option name attached :: rest) =~ unknown_long prog name.
Proof.
  intros Hv Hn Hl Hf w.
  rewrite parse_loop_long by now apply long_option_is_long.
  unfold parse_long; unfold bind. rewrite long_option_ident, Hf by assumption. reflexivity.
Qed.

Lemma long_flag (name : string) (attached : option string) (spec : Flag State)
    (rest : list string) :
  valid (long_option name attached) -> occurs "=" name = false ->
  name <> "" \/ attached <> None ->
  find_long p name = Some spec -> expects_value spec = false ->
  parse_loop p prog (long_option name attached :: rest)
  =~ (invoke p spec "" ;; parse_loop p prog rest).
Proof.
  intros Hv Hn Hl Hf He w.
  rewrite parse_loop_long by now apply long_option_is_long.
  unfold parse_long; unfold bind. rewrite long_option_ident, Hf, He by assumption.
  destruct (invoke p spec "" w); reflexivity.
Qed.

Lemma long_attached (name value : string) (spec : Flag State) (rest : list string) :
  valid ("--" ++ name ++ "=" ++ value) -> occurs "=" name = false ->
  find_long p name = Some spec -> expects_value spec = true ->
  value <> "" ->
  parse_loop p prog (("--" ++ name ++ "=" ++ value) :: rest)
  =~ (invoke p spec value ;; parse_loop p prog rest).
Proof.
  intros Hv Hn Hf He Hne w.
  rewrite parse_loop_long
    by (apply (long_option_is_long name (Some value)); right; discriminate).
  unfold parse_long; unfold bind.
  rewrite long_ident_attached, Hf, He, contains_attached, long_optarg_attached by assumption.
  destruct (Z.eqb_spec (sv.size value) 0) as [E|E];
    [apply size_0_iff in E; contradiction|].
  destruct (invoke p spec value w); reflexivity.
Qed.

Lemma long_attached_empty (name : string) (spec : Flag State) (rest : list string) :
  valid ("--" ++ name ++ "=") -> occurs "=" name = false ->
  find_long p name = Some spec -> expects_value spec = true ->
  parse_loop p prog (("--" ++ name ++ "=") :: rest) =~ missing_long prog name.
Proof.
  intros Hv Hn Hf He w.
  change ("--" ++ name ++ "=") with ("--" ++ name ++ "=" ++ "") in *.
  rewrite parse_loop_long
    by (apply (long_option_is_long name (Some "")); right; discriminate).
  unfold parse_long; unfold bind.
  rewrite (long_ident_attached name ""), Hf, He, (contains_attached name ""),
    (long_optarg_attached name "") by assumption.
  reflexivity.
Qed.

Lemma long_detached (name next : string) (spec : Flag State) (rest : list string) :
  valid ("--" ++ name) -> occurs "=" name = false -> name <> "" ->
  find_long p name = Some spec -> expects_value spec = true ->
  parse_loop p prog (("--" ++ name) :: next :: rest)
  =~ (invoke p spec next ;; parse_loop p prog rest).
Proof.
  intros Hv Hn Hne Hf He w.
  rewrite parse_loop_long
    by (rewrite is_long_token_dashes; apply negb_true_iff, Z.eqb_neq;
        now rewrite size_0_iff).
  unfold parse_long; unfold bind.
  rewrite long_ident_detached, Hf, He, contains_detached by assumption.
  destruct (invoke p spec next w); reflexivity.
Qed.

Lemma long_detached_last (name : string) (spec : Flag State) :
  valid ("--" ++ name) -> occurs "=" name = false -> name <> "" ->
  find_long p name = Some spec -> expects_value spec = true ->
  parse_loop p prog [("--" ++ name)] =~ missing_long prog name.
Proof.
  intros Hv Hn Hne Hf He w.
  rewrite parse_loop_long
    by (rewrite is_long_token_dashes; apply negb_true_iff, Z.eqb_neq;
        now rewrite size_0_iff).
  unfold parse_long; unfold bind.
  rewrite long_ident_detached, Hf, He, contains_detached by assumption.
  reflexivity.
Qed.

End Tokens.

Section ShortTokens.

Context {State : Type}.
Variable p : Parser State.
Variable prog : string.

(** *** Short options *)

(** The loop over [j] on flags that take no value: each one is called and
    the loop goes on with the next character. *)
Lemma parse_short_combined (cs flag : string) (specs : list (Flag State))
    (rest : list string) :
  combined p cs specs ->
  parse_short p prog (cs ++ flag) rest
  =~ (fire p specs ;; parse_short p prog flag rest).
Proof.
  induction 1 as [|c cs spec specs Hf He _ IH].
  - intros w. reflexivity.
  - simpl append. simpl fire. intros w.
    rewrite (bind_assoc (invoke p spec "") _ _ w).
    simpl parse_short. rewrite Hf, He.
    apply bind_same; [apply same_refl | intros _; exact IH].
Qed.

Lemma parse_short_attached (c : ascii) (value : string) (spec : Flag State)
    (rest : list string) :
  find_short p c = Some spec -> expects_value spec = true -> value <> "" ->
  parse_short p prog (String c value) rest =~ (invoke p spec value ;; ret false).
Proof.
  intros Hf He Hv w. simpl parse_short. rewrite Hf, He.
  destruct (Z.eqb_spec (sv.size value) 0) as [E|E];
    [apply size_0_iff in E; contradiction | reflexivity].
Qed.

Lemma parse_short_detached (c : ascii) (next : string) (spec : Flag State)
    (rest : list string) :
  find_short p c = Some spec -> expects_value spec = true ->
  parse_short p prog (String c "") (next :: rest) =~ (invoke p spec next ;; ret true).
Proof. intros Hf He w. simpl parse_short. rewrite Hf, He. reflexivity. Qed.

Lemma parse_short_missing (c : ascii) (spec : Flag State) :
  find_short p c = Some spec -> expects_value spec = true ->
  parse_short p prog (String c "") [] =~ missing_short prog c.
Proof. intros Hf He w. simpl parse_short. rewrite Hf, He. reflexivity. Qed.

Lemma parse_short_unknown (c : ascii) (after : string) (rest : list string) :
  find_short p c = None ->
  parse_short p prog (String c after) rest =~ unknown_short prog c.
Proof. intros Hf w. simpl parse_short. rewrite Hf. reflexivity. Qed.

(** A short token that starts with flags that take no value. *)
Lemma short_prefix (cs flag : string) (specs : list (Flag State)) (rest : list string) :
  valid ("-" ++ cs ++ flag) -> is_short_token ("-" ++ cs ++ flag) = true ->
  combined p cs specs ->
  parse_loop p prog (("-" ++ cs ++ flag) :: rest)
  =~ (fire p specs ;;
      consumed <- parse_short p prog flag rest ;; continue p prog consumed rest).
Proof.
  intros Hv Hs Hc.
  eapply same_trans; [now apply parse_loop_short|].
  eapply same_trans; [|apply bind_assoc].
  apply bind_same; [now apply parse_short_combined | intros x; apply same_refl].
Qed.

Lemma short_combined (cs : string) (specs : list (Flag State)) (rest : list string) :
  valid ("-" ++ cs) -> is_short_token ("-" ++ cs) = true ->
  combined p cs specs ->
  parse_loop p prog (("-" ++ cs) :: rest) =~ (fire p specs ;; parse_loop p prog rest).
Proof.
  intros Hv Hs Hc. rewrite <- (append_nil_r cs) in Hv, Hs |- *.
  eapply same_trans; [now apply short_prefix; eauto|].
  apply bind_same; [apply same_refl | intros _ w; reflexivity].
Qed.

Lemma short_attached (cs : string) (c : ascii) (value : string)
    (specs : list (Flag State)) (spec : Flag State) (rest : list string) :
  valid ("-" ++ cs ++ String c value) ->
  is_short_token ("-" ++ cs ++ String c value) = true ->
  combined p cs specs ->
  find_short p c = Some spec -> expects_value spec = true -> value <> "" ->
  parse_loop p prog (("-" ++ cs ++ String c value) :: rest)
  =~ (fire p specs ;; invoke p spec value ;; parse_loop p prog rest).
Proof.
  intros Hv Hs Hc Hf He Hne.
  eapply same_trans; [now apply short_prefix; eauto|].
  apply bind_same; [apply same_refl | intros _ w].
  unfold bind at 1. rewrite (parse_short_attached c value spec) by assumption.
  unfold bind. destruct (invoke p spec value w); reflexivity.
Qed.

Lemma short_detached (cs : string) (c : ascii) (next : string)
    (specs : list (Flag State)) (spec : Flag State) (rest : list string) :
  valid ("-" ++ cs ++ String c "") ->
  is_short_token ("-" ++ cs ++ String c "") = true ->
  combined p cs specs ->
  find_short p c = Some spec -> expects_value spec = true ->
  parse_loop p prog (("-" ++ cs ++ String c "") :: next :: rest)
  =~ (fire p specs ;; invoke p spec next ;; parse_loop p prog rest).
Proof.
  intros Hv Hs Hc Hf He.
  eapply same_trans; [now apply short_prefix; eauto|].
  apply bind_same; [apply same_refl | intros _ w].
  unfold bind at 1. rewrite (parse_short_detached c next spec) by assumption.
  unfold bind. destruct (invoke p spec next w); reflexivity.
Qed.

Lemma short_missing (cs : string) (c : ascii)
    (specs : list (Flag State)) (spec : Flag State) :
  valid ("-" ++ cs ++ String c "") ->
  is_short_token ("-" ++ cs ++ String c "") = true ->
  combined p cs specs ->
  find_short p c = Some spec -> expects_value spec = true ->
  parse_loop p prog [("-" ++ cs ++ String c "")]
  =~ (fire p specs ;; missing_short prog c).
Proof.
  intros Hv Hs Hc Hf He.
  eapply same_trans; [now apply short_prefix; eauto|].
  apply bind_same; [apply same_refl | intros _ w].
  unfold bind at 1. rewrite (parse_short_missing c spec) by assumption. reflexivity.
Qed.

Lemma short_unknown (cs : string) (c : ascii) (after : string)
    (specs : list (Flag State)) (rest : list string) :
  valid ("-" ++ cs ++ String c after) ->
  is_short_token ("-" ++ cs ++ String c after) = true ->
  combined p cs specs ->
  find_short p c = None ->
  parse_loop p prog (("-" ++ cs ++ String c after) :: rest)
  =~ (fire p specs ;; unknown_short prog c).
Proof.
  intros Hv Hs Hc Hf.
  eapply same_trans; [now apply short_prefix; eauto|].
  apply bind_same; [apply same_refl | intros _ w].
  unfold bind at 1. rewrite parse_short_unknown by assumption. reflexivity.
Qed.

End ShortTokens.

(** ** The properties of the specification *)

Section Properties.

Context {State : Type}.
Variable p : Parser State.
Variable prog : string.

(** C2.  Flags that take no value, combined into one short token
    ([-abc]): parsing the token calls the callback of each flag once, in
    the order of the characters, each with an empty argument, and then
    goes on with the next token. *)
Theorem combined_flags_fire_in_order (cs : string) (specs : list (Flag State))
    (rest : list string) :
  valid ("-" ++ cs) -> is_short_token ("-" ++ cs) = true ->
  combined p cs specs ->
  parse p (prog :: ("-" ++ cs) :: rest) =~ (fire p specs ;; parse p (prog :: rest)).
Proof. intros Hv Hs Hc. exact (short_combined p prog cs specs rest Hv Hs Hc). Qed.

(** C3.  A detached argument.  A long option that takes a value and has no
    ['='] in its token, or a short one whose character is the last of its
    token, is called with the next token whatever that token looks like,
    and parsing goes on after it.  Without a next token [parse] writes
    that the option requires an argument and exits with status 1. *)
Theorem detached_argument_is_next_token :
  (forall (name : string) (spec : Flag State),
      valid ("--" ++ name) -> occurs "=" name = false -> name <> "" ->
      find_long p name = Some spec -> expects_value spec = true ->
      (forall (next : string) (rest : list string),
          parse p (prog :: ("--" ++ name) :: next :: rest)
          =~ (invoke p spec next ;; parse p (prog :: rest)))
      /\ parse p [prog; "--" ++ name]
         =~ (put_cerr (prog ++ ": option '--" ++ name ++ "' requires an argument" ++ nl) ;;
             exit 1))
  /\ (forall (cs : string) (c : ascii) (specs : list (Flag State)) (spec : Flag State),
         valid ("-" ++ cs ++ String c "") ->
         is_short_token ("-" ++ cs ++ String c "") = true ->
         combined p cs specs ->
         find_short p c = Some spec -> expects_value spec = true ->
         (forall (next : string) (rest : list string),
             parse p (prog :: ("-" ++ cs ++ String c "") :: next :: rest)
             =~ (fire p specs ;; invoke p spec next ;; parse p (prog :: rest)))
         /\ parse p [prog; "-" ++ cs ++ String c ""]
            =~ (fire p specs ;;
                put_cerr (prog ++ ": option '-" ++ String c "" ++ "' requires an argument" ++ nl) ;;
                exit 1)).
Proof.
  split.
  - intros name spec Hv Hn Hne Hf He. split.
    + intros next rest. exact (long_detached p prog name next spec rest Hv Hn Hne Hf He).
    + exact (long_detached_last p prog name spec Hv Hn Hne Hf He).
  - intros cs c specs spec Hv Hs Hc Hf He. split.
    + intros next rest.
      exact (short_detached p prog cs c next specs spec rest Hv Hs Hc Hf He).
    + exact (short_missing p prog cs c specs spec Hv Hs Hc Hf He).
Qed.

(** C4.  For a long option that takes a value, the token [--name=] makes
    [parse] write that the option requires an argument and exit with
    status 1, without calling the callback; with something after the
    ['='] the callback gets all of it, that is, what follows the first
    ['='] of the token. *)
Theorem attached_long_value (name : string) (spec : Flag State) (rest : list string) :
  occurs "=" name = false ->
  find_long p name = Some spec -> expects_value spec = true ->
  (valid ("--" ++ name ++ "=") ->
   parse p (prog :: ("--" ++ name ++ "=") :: rest)
   =~ (put_cerr (prog ++ ": option '--" ++ name ++ "' requires an argument" ++ nl) ;;
       exit 1))
  /\ (forall value : string,
         valid ("--" ++ name ++ "=" ++ value) -> value <> "" ->
         long_optarg ("--" ++ name ++ "=" ++ value) = value
         /\ parse p (prog :: ("--" ++ name ++ "=" ++ value) :: rest)
            =~ (invoke p spec value ;; parse p (prog :: rest))).
Proof.
  intros Hn Hf He. split.
  - intros Hv. exact (long_attached_empty p prog name spec rest Hv Hn Hf He).
  - intros value Hv Hne. split.
    + now apply long_optarg_attached.
    + exact (long_attached p prog name value spec rest Hv Hn Hf He Hne).
Qed.

(** C6.  A short option that takes a value and is not the last character
    of its token is called with the rest of the token, and the token is
    done: parsing goes on with the next token.  And [-fp something], with
    [f] taking no value and [p] taking one, calls [f] and then [p] with
    ["something"]. *)
Theorem attached_short_value :
  (forall (cs : string) (c : ascii) (value : string)
          (specs : list (Flag State)) (spec : Flag State) (rest : list string),
      valid ("-" ++ cs ++ String c value) ->
      is_short_token ("-" ++ cs ++ String c value) = true ->
      combined p cs specs ->
      find_short p c = Some spec -> expects_value spec = true -> value <> "" ->
      parse p (prog :: ("-" ++ cs ++ String c value) :: rest)
      =~ (fire p specs ;; invoke p spec value ;; parse p (prog :: rest)))
  /\ (forall (f_spec p_spec : Flag State) (rest : list string),
         find_short p "f" = Some f_spec -> expects_value f_spec = false ->
         find_short p "p" = Some p_spec -> expects_value p_spec = true ->
         parse p (prog :: "-fp" :: "something" :: rest)
         =~ (invoke p f_spec "" ;; invoke p p_spec "something" ;; parse p (prog :: rest))).
Proof.
  split.
  - intros cs c value specs spec rest Hv Hs Hc Hf He Hne.
    exact (short_attached p prog cs c value specs spec rest Hv Hs Hc Hf He Hne).
  - intros f_spec p_spec rest Hf Hfe Hp Hpe.
    assert (Hc : combined p "f" [f_spec]) by (constructor; [assumption .. | constructor]).
    pose proof (short_detached p prog "f" "p" "something" [f_spec] p_spec rest
                  ltac:(vm_compute; discriminate) eq_refl Hc Hp Hpe) as H.
    eapply same_trans; [exact H|]. simpl fire.
    eapply same_trans; [apply bind_assoc|].
    apply bind_same; [apply same_refl | intros _ w; unfold parse; reflexivity].
Qed.

(** C8.  A token that passes neither test of [parse], the one for long
    options (three characters or more, starting with [--]) and the one for
    short options (two characters or more, starting with [-]), is skipped:
    nothing is written, no callback is called, and parsing goes on with
    the next token. *)
Theorem other_tokens_are_skipped (arg : string) (rest : list string) :
  is_long_token arg = false -> is_short_token arg = false ->
  (sv.size arg < 2 \/ sv.starts_with_char arg "-" = false)
  /\ parse p (prog :: arg :: rest) =~ parse p (prog :: rest).
Proof.
  intros Hl Hs. split; [|exact (parse_loop_skip p prog arg rest Hl Hs)].
  unfold is_short_token in Hs. rewrite Hl in Hs. simpl negb in Hs.
  rewrite andb_true_l in Hs. apply andb_false_iff in Hs as [Hs|Hs].
  - left. now apply Z.leb_gt.
  - now right.
Qed.

(** C9, amended.  A long token with nothing before its first ['=']
    ([--=v]) is looked up under the empty name, which is the long name that
    the constructors for short flags store, so it resolves to the first
    flag of the registry with an empty long name and no unknown option is
    reported.  A flag that takes no value is called with the empty
    argument; a flag that takes a value is called with [v] when [v] is not
    empty, and for the token [--=] [parse] writes
    [<prog>: option '--' requires an argument] and exits with status 1
    without calling it. *)
Theorem empty_long_name_matches_short_flag :
  (forall (c : ascii) (desc : string) (f : M State unit) (g : string -> M State unit),
      long_name (Flag_short c desc f) = "" /\ long_name (Flag_short_arg c desc g) = "")
  /\ (forall (before after : list (Flag State)) (spec : Flag State)
             (v : string) (rest : list string),
         flags p = (before ++ spec :: after)%list ->
         (forall g, In g before -> long_name g <> "") ->
         long_name spec = "" ->
         valid ("--=" ++ v) ->
         long_ident ("--=" ++ v) = ""
         /\ find_long p "" = Some spec
         /\ (expects_value spec = true -> v <> "" ->
             parse p (prog :: ("--=" ++ v) :: rest)
             =~ (invoke p spec v ;; parse p (prog :: rest)))
         /\ (expects_value spec = true ->
             parse p (prog :: "--=" :: rest)
             =~ (put_cerr (prog ++ ": option '--' requires an argument" ++ nl) ;; exit 1))
         /\ (expects_value spec = false ->
             parse p (prog :: ("--=" ++ v) :: rest)
             =~ (invoke p spec "" ;; parse p (prog :: rest)))).
Proof.
  split; [intros; split; reflexivity|].
  intros before after spec v rest Hfl Hb Hs Hv.
  unfold parse. change ("--=" ++ v) with ("--" ++ "" ++ "=" ++ v) in *.
  assert (Hf : find_long p "" = Some spec).
  { unfold find_long. rewrite Hfl. apply find_if_first.
    - intros g Hg. apply String.eqb_neq. now apply Hb.
    - now apply String.eqb_eq. }
  split; [exact (long_ident_attached "" v Hv eq_refl)|].
  split; [exact Hf|]. split; [|split].
  - intros He Hne. exact (long_attached p prog "" v spec rest Hv eq_refl Hf He Hne).
  - intros He.
    assert (Hv0 : valid ("--" ++ "" ++ "=")) by size_fits.
    pose proof (long_attached_empty p prog "" spec rest Hv0 eq_refl Hf He) as H.
    intros w. exact (H w).
  - intros He.
    change ("--" ++ "" ++ "=" ++ v) with (long_option "" (Some v)) in *.
    apply long_flag; [exact Hv | reflexivity | right; discriminate | exact Hf | exact He].
Qed.

(** C10.  The token [--] is a short token whose only character is [-]:
    when no flag has the short name [-], [parse] writes
    [unknown option: '--'] and exits with status 1 before it looks at a
    later token. *)
Theorem double_dash_is_unknown_short (rest : list string) :
  (forall f, In f (flags p) -> short_name f <> "-"%char) ->
  is_long_token "--" = false
  /\ is_short_token "--" = true
  /\ forall w,
      parse p (prog :: "--" :: rest) w
      = Exits 1 (mkWorld (user w) (cout w) (cerr w ++ prog ++ ": unknown option: '--'" ++ nl)).
Proof.
  intros Hnone. split; [reflexivity|]. split; [reflexivity|]. intros w.
  apply find_short_none in Hnone.
  pose proof (short_unknown p prog "" "-" "" [] rest
                ltac:(vm_compute; discriminate) eq_refl (combined_nil p) Hnone) as H.
  exact (H w).
Qed.

End Properties.

(** ** Where [parse] ends the process *)

Section Exits.

Context {State : Type}.
Variable p : Parser State.
Variable prog : string.

Lemma diagnostic_exit_intro (line : string) (w : World State) :
  diagnostic prog line ->
  diagnostic_exit prog 1 (mkWorld (user w) (cout w) (cerr w ++ line)).
Proof. intros H. split; [reflexivity|]. now exists line, w. Qed.

Lemma invoke_exit (pred : Flag State -> bool) (spec : Flag State) (optarg : string)
    (w : World State) (status : Z) (w' : World State) :
  find_if pred (flags p) = Some spec ->
  invoke p spec optarg w = Exits status w' ->
  callback_exit p status w'.
Proof.
  intros Hf Hi. apply find_if_in in Hf as [Hin _]. now exists spec, optarg, w.
Qed.

Lemma parse_long_exit (arg : string) (rest : list string) (w : World State)
    (status : Z) (w' : World State) :
  parse_long p prog arg rest w = Exits status w' ->
  callback_exit p status w' \/ diagnostic_exit prog status w'.
Proof.
  unfold parse_long. destruct (find_long p (long_ident arg)) as [spec|] eqn:Hf.
  - destruct (expects_value spec).
    + destruct (sv.contains arg "=").
      * destruct (sv.size (long_optarg arg) =? 0).
        -- intros [= <- <-]. right. apply diagnostic_exit_intro. constructor.
        -- unfold bind. destruct (invoke p spec (long_optarg arg) w) eqn:Hi; [discriminate|].
           intros [= <- <-]. left. eapply invoke_exit; eassumption.
      * destruct rest as [|next rest'].
        -- intros [= <- <-]. right. apply diagnostic_exit_intro. constructor.
        -- unfold bind. destruct (invoke p spec next w) eqn:Hi; [discriminate|].
           intros [= <- <-]. left. eapply invoke_exit; eassumption.
    + unfold bind. destruct (invoke p spec "" w) eqn:Hi; [discriminate|].
      intros [= <- <-]. left. eapply invoke_exit; eassumption.
  - intros [= <- <-]. right. apply diagnostic_exit_intro. constructor.
Qed.

Lemma parse_short_exit (flag : string) (rest : list string) (w : World State)
    (status : Z) (w' : World State) :
  parse_short p prog flag rest w = Exits status w' ->
  callback_exit p status w' \/ diagnostic_exit prog status w'.
Proof.
  revert w. induction flag as [|c flag' IH]; intros w; simpl; [discriminate|].
  destruct (find_short p c) as [spec|] eqn:Hf.
  - destruct (expects_value spec).
    + destruct (sv.size flag' =? 0); unfold negb.
      * destruct rest as [|next rest'].
        -- intros [= <- <-]. right. apply diagnostic_exit_intro. constructor.
        -- unfold bind. destruct (invoke p spec next w) eqn:Hi; [discriminate|].
           intros [= <- <-]. left. eapply invoke_exit; eassumption.
      * unfold bind. destruct (invoke p spec flag' w) eqn:Hi; [discriminate|].
        intros [= <- <-]. left. eapply invoke_exit; eassumption.
    + unfold bind at 1. destruct (invoke p spec "" w) eqn:Hi.
      * apply IH.
      * intros [= <- <-]. left. eapply invoke_exit; eassumption.
  - intros [= <- <-]. right. apply diagnostic_exit_intro. constructor.
Qed.

Lemma parse_token_exit (arg : string) (rest : list string) (w : World State)
    (status : Z) (w' : World State) :
  parse_token p prog arg rest w = Exits status w' ->
  callback_exit p status w' \/ diagnostic_exit prog status w'.
Proof.
  unfold parse_token. destruct (is_long_token arg).
  - apply parse_long_exit.
  - destruct ((2 <=? sv.size arg) && sv.starts_with_char arg "-").
    + apply parse_short_exit.
    + discriminate.
Qed.

Lemma parse_loop_exit_bounded (n : nat) (args : list string) (w : World State)
    (status : Z) (w' : World State) :
  (List.length args <= n)%nat ->
  parse_loop p prog args w = Exits status w' ->
  callback_exit p status w' \/ diagnostic_exit prog status w'.
Proof.
  revert args w. induction n as [|n IH]; intros args w Hlen.
  - destruct args; [discriminate | simpl in Hlen; lia].
  - destruct args as [|arg rest]; [discriminate|].
    simpl in Hlen. simpl parse_loop. unfold bind.
    destruct (parse_token p prog arg rest w) as [consumed w1|st w1] eqn:Ht.
    + destruct consumed.
      * destruct rest as [|next rest']; [discriminate|].
        apply IH. simpl in Hlen. lia.
      * apply IH. lia.
    + intros [= <- <-]. eapply parse_token_exit; eassumption.
Qed.

Lemma parse_loop_exit (args : list string) (w : World State)
    (status : Z) (w' : World State) :
  parse_loop p prog args w = Exits status w' ->
  callback_exit p status w' \/ diagnostic_exit prog status w'.
Proof. apply (parse_loop_exit_bounded (List.length args)). lia. Qed.

End Exits.

(** ** The help page *)

Section HelpPage.

Context {State : Type}.

Lemma concat_cons (l : string) (ls : list string) :
  String.concat "" (l :: ls) = l ++ String.concat "" ls.
Proof. destruct ls; simpl; [now rewrite append_nil_r | reflexivity]. Qed.

(** The stream [lhs] holds the left-hand column. *)
Lemma help_lhs_left_column (f : Flag State) : help_lhs f = left_column f.
Proof.
  unfold help_lhs, left_column, spellings, sv.empty.
  destruct (Ascii.eqb (short_name f) NUL); destruct (long_name f) as [|a long];
    destruct (expects_value f); simpl; rewrite ?append_nil_r; reflexivity.
Qed.

Lemma help_entry_aligned (f : Flag State) : help_entry f = aligned_entry f.
Proof.
  unfold help_entry, aligned_entry. rewrite help_lhs_left_column.
  change lhs_max with column_width.
  destruct (sv.size (left_column f) <=? column_width); reflexivity.
Qed.

Lemma print_help_entries_text (fs : list (Flag State)) (w : World State) :
  print_help_entries fs w
  = Returns tt (mkWorld (user w) (cout w ++ String.concat "" (map help_entry fs)) (cerr w)).
Proof.
  revert w. induction fs as [|f fs IH]; intros w.
  - simpl. rewrite append_nil_r. now destruct w.
  - simpl print_help_entries. unfold bind, put_cout. rewrite IH. simpl user.
    simpl cout. simpl cerr. simpl map. now rewrite concat_cons, append_assoc.
Qed.

(** C7, amended.  The help page is the line [Usage: <usage>] followed by
    one entry for each flag, in the order in which the flags were added.
    An entry starts with the left-hand column: two spaces, [-c] and
    [--name] joined by [", "] when the flag has both, and [" ARG"] when it
    takes a value.  A column of at most 32 characters is filled with
    spaces to 32, followed by one space and the description.  A longer
    one stands alone on its line, and the description comes on the next
    line after 33 spaces, that is, in the same place as in the first
    case. *)
Theorem help_page_text (p : Parser State) (usage : string) :
  (forall f : Flag State, flags (add f p) = (flags p ++ [f])%list)
  /\ (forall w,
         print_help_page p usage w
         = Returns tt (mkWorld (user w)
                         (cout w ++ help_text aligned_entry usage (flags p))
                         (cerr w)))
  /\ (forall f : Flag State,
         sv.size (left_column f) <= column_width ->
         exists padding,
           aligned_entry f = left_column f ++ padding ++ " " ++ description f ++ nl
           /\ padding = sv.fill (column_width - sv.size (left_column f)) " "
           /\ sv.size (left_column f ++ padding) = column_width)
  /\ (forall f : Flag State,
         column_width < sv.size (left_column f) ->
         aligned_entry f
         = left_column f ++ nl ++ sv.fill column_width " " ++ " " ++ description f ++ nl).
Proof.
  split; [reflexivity|]. split; [|split].
  - intros w. unfold print_help_page, bind, put_cout.
    rewrite print_help_entries_text. cbn [user cout cerr].
    rewrite (map_ext _ _ help_entry_aligned).
    unfold help_text. now rewrite !append_assoc.
  - intros f Hle. exists (sv.fill (column_width - sv.size (left_column f)) " ").
    split; [|split; [reflexivity|]].
    + unfold aligned_entry. apply Z.leb_le in Hle. now rewrite Hle.
    + rewrite size_append. unfold sv.fill, sv.size at 2.
      assert (E : forall n, String.length (string_of_list_ascii (repeat " "%char n)) = n)
        by (induction n as [|n IHn]; simpl; [reflexivity | now rewrite IHn]).
      rewrite E. pose proof (size_nonneg (left_column f)). lia.
  - intros f Hgt. unfold aligned_entry. apply Z.leb_gt in Hgt. rewrite Hgt. reflexivity.
Qed.

End HelpPage.

(** ** Attached and detached values, unknown options *)

Section Corrections.

Context {State : Type}.
Variable p : Parser State.
Variable prog : string.




(** C5, amended.  A long token whose identifier is not the long name of
    any flag makes [parse] write [<prog>: unknown option: '--name'] and
    exit with status 1 without calling a callback.  When the loop over a
    short token reaches a character that is not the short name of any
    flag, [parse] writes [<prog>: unknown option: '-c'] and exits with
    status 1; neither that character nor what follows it calls a
    callback, but the flags without a value that stand before it in the
    token have been called.  And whenever [parse] ends the process, either
    a callback did it or the status is 1 and the last line on the error
    stream is one of [<prog>: unknown option: '--name'],
    [<prog>: unknown option: '-c'],
    [<prog>: option '--name' requires an argument] and
    [<prog>: option '-c' requires an argument]. *)
Theorem unknown_options_and_diagnostics :
  (forall (name : string) (attached : option string) (rest : list string),
      valid (long_option name attached) -> occurs "=" name = false ->
      name <> "" \/ attached <> None ->
      (forall f, In f (flags p) -> long_name f <> name) ->
      forall w,
        parse p (prog :: long_option name attached :: rest) w
        = Exits 1 (mkWorld (user w) (cout w)
                     (cerr w ++ prog ++ ": unknown option: '--" ++ name ++ "'" ++ nl)))
  /\ (forall (cs : string) (c : ascii) (after : string)
             (specs : list (Flag State)) (rest : list string),
         valid ("-" ++ cs ++ String c after) ->
         is_short_token ("-" ++ cs ++ String c after) = true ->
         combined p cs specs ->
         (forall f, In f (flags p) -> short_name f <> c) ->
         parse p (prog :: ("-" ++ cs ++ String c after) :: rest)
         =~ (fire p specs ;;
             put_cerr (prog ++ ": unknown option: '-" ++ String c "" ++ "'" ++ nl) ;;
             exit 1))
  /\ (forall (args : list string) (w : World State) (status : Z) (w' : World State),
         parse p (prog :: args) w = Exits status w' ->
         callback_exit p status w' \/ diagnostic_exit prog status w').
Proof.
  split; [|split].
  - intros name attached rest Hv Hn Hl Hnone w.
    apply find_long_none in Hnone.
    exact (long_unknown p prog name attached rest Hv Hn Hl Hnone w).
  - intros cs c after specs rest Hv Hs Hc Hnone.
    apply find_short_none in Hnone.
    exact (short_unknown p prog cs c after specs rest Hv Hs Hc Hnone).
  - intros args w status w'. apply parse_loop_exit.
Qed.

End Corrections.

(** ** The properties on the programs of the repository *)

(** [example2 -ac] calls [a], then [c]. *)
Lemma combined_flags_fire_in_order_run :
  parse Example2.parser ["example"; "-ac"]
  =~ (fire Example2.parser [Example2.flag_a; Example2.flag_c] ;;
      parse Example2.parser ["example"]).
Proof.
  apply (combined_flags_fire_in_order Example2.parser "example" "ac");
    [size_fits | reflexivity | resolve_combined].
Defined.

(** What [example2 -ac] writes: one [a], then one [c]. *)
Example run_combined_flags :
  parse Example2.parser ["example"; "-ac"] Example2.start
  = Returns tt (mkWorld true ("a" ++ nl ++ "c" ++ nl) "").
Proof. vm_compute. reflexivity. Qed.

(** [example --filename --flag] takes [--flag] as the file name, and so does
    [example -fp -f] for what is printed. *)
Lemma detached_argument_is_next_token_run :
  parse Example.parser ["example"; "--filename"; "--flag"]
  =~ (invoke Example.parser Example.flag_filename "--flag" ;; parse Example.parser ["example"])
  /\ parse Example.parser ["example"; "-fp"; "-f"]
     =~ (fire Example.parser [Example.flag_f] ;;
         invoke Example.parser Example.flag_p "-f" ;; parse Example.parser ["example"]).
Proof.
  destruct (detached_argument_is_next_token Example.parser "example") as [Hlong Hshort].
  split.
  - destruct (Hlong "filename" Example.flag_filename) as [H _];
      [size_fits | reflexivity | discriminate | reflexivity | reflexivity |].
    exact (H "--flag" []).
  - destruct (Hshort "f" "p"%char [Example.flag_f] Example.flag_p) as [H _];
      [size_fits | reflexivity | resolve_combined | reflexivity | reflexivity |].
    exact (H "-f" []).
Defined.

(** [example --filename=] and [example --filename=a.out]. *)
Lemma attached_long_value_run :
  parse Example.parser ["example"; "--filename="]
  =~ (put_cerr ("example: option '--filename' requires an argument" ++ nl) ;; exit 1)
  /\ parse Example.parser ["example"; "--filename=a.out"]
     =~ (invoke Example.parser Example.flag_filename "a.out" ;; parse Example.parser ["example"]).
Proof.
  destruct (attached_long_value Example.parser "example" "filename" Example.flag_filename [])
    as [Hempty Hvalue]; [reflexivity | reflexivity | reflexivity |].
  split.
  - apply Hempty. size_fits.
  - apply (Hvalue "a.out"); [size_fits | discriminate].
Defined.

(** [example -fpsomething] and [example -fp something]. *)
Lemma attached_short_value_run :
  parse Example.parser ["example"; "-fpsomething"]
  =~ (fire Example.parser [Example.flag_f] ;;
      invoke Example.parser Example.flag_p "something" ;; parse Example.parser ["example"])
  /\ parse Example.parser ["example"; "-fp"; "something"]
     =~ (invoke Example.parser Example.flag_f "" ;;
         invoke Example.parser Example.flag_p "something" ;; parse Example.parser ["example"]).
Proof.
  destruct (attached_short_value Example.parser "example") as [Hattached Hfp].
  split.
  - apply (Hattached "f" "p"%char "something" [Example.flag_f] Example.flag_p []);
      [size_fits | reflexivity | resolve_combined | reflexivity | reflexivity | discriminate].
  - apply (Hfp Example.flag_f Example.flag_p []); reflexivity.
Defined.

(** [example input.txt -f] is [example -f]. *)
Lemma other_tokens_are_skipped_run :
  parse Example.parser ["example"; "input.txt"; "-f"] =~ parse Example.parser ["example"; "-f"].
Proof.
  apply (other_tokens_are_skipped Example.parser "example" "input.txt" ["-f"]); reflexivity.
Defined.

(** The lone dash and the empty token are skipped as well. *)
Example lone_dash_and_empty_token :
  parse Example.parser ["example"; "-"; ""; "-f"] Example.start
  = Returns tt (mkWorld (Example.mkVars true "") "" "").
Proof. vm_compute. reflexivity. Qed.

(** [example --=x] prints [x]: the flag [-p] is the first one without a
    long name.  [example --=] ends with a diagnostic. *)
Lemma empty_long_name_matches_short_flag_run :
  find_long Example.parser "" = Some Example.flag_p
  /\ parse Example.parser ["example"; "--=x"]
     =~ (invoke Example.parser Example.flag_p "x" ;; parse Example.parser ["example"])
  /\ parse Example.parser ["example"; "--="]
     =~ (put_cerr ("example" ++ ": option '--' requires an argument" ++ nl) ;; exit 1).
Proof.
  destruct (empty_long_name_matches_short_flag Example.parser "example") as [_ H].
  destruct (H [Example.flag_f; Example.flag_filename]
              [mkFlag "h"%char "help" "Print help" false (HelpPage "example [args]")]
              Example.flag_p "x" [])
    as (_ & Hfind & Hvalue & Hempty & _).
  - reflexivity.
  - intros g [<-|[<-|[]]]; discriminate.
  - reflexivity.
  - size_fits.
  - split; [exact Hfind|]. split.
    + apply Hvalue; [reflexivity | discriminate].
    + apply Hempty. reflexivity.
Defined.

(** C9, as stated, fails for the token [--=]: in the usage example the
    empty name resolves to [-p], which takes a value, and [example --=]
    does not call it: nothing is printed, the diagnostic of a missing
    argument is written and the status is 1. *)
Lemma empty_identifier_without_value_is_refused :
  is_long_token "--=" = true
  /\ long_ident "--=" = ""
  /\ find_long Example.parser "" = Some Example.flag_p
  /\ expects_value Example.flag_p = true
  /\ parse Example.parser ["example"; "--="] Example.start
     = Exits 1 (mkWorld (Example.mkVars false "") ""
                  ("example: option '--' requires an argument" ++ nl))
  /\ (forall optarg,
         parse Example.parser ["example"; "--="] Example.start
         <> (invoke Example.parser Example.flag_p optarg ;; parse Example.parser ["example"])
              Example.start).
Proof.
  split; [reflexivity|]. split; [vm_compute; reflexivity|].
  split; [reflexivity|]. split; [reflexivity|].
  split; [vm_compute; reflexivity|].
  intros optarg H.
  assert (E : parse Example.parser ["example"; "--="] Example.start
              = Exits 1 (mkWorld (Example.mkVars false "") ""
                           ("example: option '--' requires an argument" ++ nl)))
    by (vm_compute; reflexivity).
  rewrite E in H. vm_compute in H. discriminate.
Qed.

(** [example -- -f] ends with [unknown option: '--']. *)
Lemma double_dash_is_unknown_short_run :
  parse Example.parser ["example"; "--"; "-f"] Example.start
  = Exits 1 (mkWorld (Example.mkVars false "") "" ("example: unknown option: '--'" ++ nl)).
Proof.
  destruct (double_dash_is_unknown_short Example.parser "example" ["-f"]) as (_ & _ & H).
  - intros f [<-|[<-|[<-|[<-|[]]]]]; discriminate.
  - exact (H Example.start).
Defined.



(** [example --verbose], [example -fx] and the end of [example -p]. *)
Lemma unknown_options_and_diagnostics_run :
  parse Example.parser ["example"; "--verbose"] Example.start
  = Exits 1 (mkWorld (Example.mkVars false "") "" ("example: unknown option: '--verbose'" ++ nl))
  /\ parse Example.parser ["example"; "-fx"]
     =~ (fire Example.parser [Example.flag_f] ;;
         put_cerr ("example: unknown option: '-x'" ++ nl) ;; exit 1)
  /\ (callback_exit Example.parser 1
        (mkWorld (Example.mkVars false "") "" ("example: option '-p' requires an argument" ++ nl))
      \/ diagnostic_exit "example" 1
           (mkWorld (Example.mkVars false "") "" ("example: option '-p' requires an argument" ++ nl))).
Proof.
  destruct (unknown_options_and_diagnostics Example.parser "example")
    as (Hlong & Hshort & Hexit).
  split; [|split].
  - assert (Hv : valid (long_option "verbose" None)) by size_fits.
    assert (Hne : "verbose" <> "" \/ @None string <> None) by (left; discriminate).
    assert (Hnone : forall f, In f (flags Example.parser) -> long_name f <> "verbose")
      by (intros f [<-|[<-|[<-|[<-|[]]]]]; discriminate).
    etransitivity; [exact (Hlong "verbose" None [] Hv eq_refl Hne Hnone Example.start)|].
    vm_compute. reflexivity.
  - apply (Hshort "f" "x"%char "" [Example.flag_f] []);
      [size_fits | reflexivity | resolve_combined |].
    intros f [<-|[<-|[<-|[<-|[]]]]]; discriminate.
  - apply (Hexit ["-p"] Example.start). vm_compute. reflexivity.
Defined.

(** C5, as stated, fails twice.  [example -fx] names the unregistered [x],
    yet the callback of [f] has run for that token: [flag] is set when the
    process ends.  And the line that [example -p] writes is
    [option '-p' requires an argument], which is none of the documented
    forms: the documented one has a space after the dash. *)
Lemma unknown_short_after_called_flag :
  (forall f, In f (flags Example.parser) -> short_name f <> "x"%char)
  /\ parse Example.parser ["example"; "-fx"] Example.start
     = Exits 1 (mkWorld (Example.mkVars true "") "" ("example: unknown option: '-x'" ++ nl))
  /\ Example.flag (user Example.start) = false
  /\ parse Example.parser ["example"; "-p"] Example.start
     = Exits 1 (mkWorld (Example.mkVars false "") ""
                  ("example: option '-p' requires an argument" ++ nl))
  /\ ~ documented_diagnostic "example" ("example: option '-p' requires an argument" ++ nl).
Proof.
  split; [intros f [<-|[<-|[<-|[<-|[]]]]]; discriminate|].
  split; [vm_compute; reflexivity|]. split; [reflexivity|].
  split; [vm_compute; reflexivity|].
  intros H. inversion H as [name E|c E|name E|c E]; simpl in E; discriminate.
Qed.

(** The entry of [-f, --flag] of the example, and the entry of the parser
    with the long column. *)
Lemma help_page_text_run :
  (exists padding,
      aligned_entry Example.flag_f
      = left_column Example.flag_f ++ padding ++ " " ++ description Example.flag_f ++ nl
      /\ padding = sv.fill (column_width - sv.size (left_column Example.flag_f)) " "
      /\ sv.size (left_column Example.flag_f ++ padding) = column_width)
  /\ aligned_entry Wide.flag_wide
     = left_column Wide.flag_wide ++ nl ++ sv.fill column_width " " ++ " "
       ++ description Wide.flag_wide ++ nl.
Proof.
  destruct (help_page_text Example.parser "example [args]") as (_ & _ & Hfits & _).
  destruct (help_page_text Wide.parser "wide [args]") as (_ & _ & _ & Hwide).
  split.
  - apply Hfits. vm_compute. discriminate.
  - apply Hwide. vm_compute. reflexivity.
Defined.

(** The runs that the header documents: [example -f --filename=a.out] sets
    the flag and the file name, [example -fp something] sets the flag and
    prints [something], [example --help] prints the help page and exits
    with status 1. *)
Example run_flag_and_filename :
  parse Example.parser ["example"; "-f"; "--filename=a.out"] Example.start
  = Returns tt (mkWorld (Example.mkVars true "a.out") "" "").
Proof. vm_compute. reflexivity. Qed.

Example run_flag_and_print :
  parse Example.parser ["example"; "-fp"; "something"] Example.start
  = Returns tt (mkWorld (Example.mkVars true "") ("something" ++ nl) "").
Proof. vm_compute. reflexivity. Qed.

Example run_help :
  parse Example.parser ["example"; "--help"] Example.start
  = Exits 1 (mkWorld (Example.mkVars false "")
      ("Usage: example [args]" ++ nl ++
       "  -f, --flag                     Set flag" ++ nl ++
       "  --filename ARG                 Specify filename" ++ nl ++
       "  -p ARG                         Print something" ++ nl ++
       "  -h, --help                     Print help" ++ nl)
      "").
Proof. vm_compute. reflexivity. Qed.

(** The help page of the usage example, as the header documents it. *)
Example help_page_of_example :
  print_help_page Example.parser "example [args]" Example.start
  = Returns tt (mkWorld (Example.mkVars false "")
      ("Usage: example [args]" ++ nl ++
       "  -f, --flag                     Set flag" ++ nl ++
       "  --filename ARG                 Specify filename" ++ nl ++
       "  -p ARG                         Print something" ++ nl ++
       "  -h, --help                     Print help" ++ nl)
      "").
Proof. vm_compute. reflexivity. Qed.

(** C7, as stated, fails for a left-hand column of more than 32 characters:
    the description of the next line comes after 33 spaces, not after 32. *)
Lemma wide_entry_is_not_as_documented :
  column_width < sv.size (left_column Wide.flag_wide)
  /\ print_help_page Wide.parser "wide [args]" Wide.start
     = Returns tt (mkWorld tt
         ("Usage: wide [args]" ++ nl ++
          "  --output-directory-for-reports ARG" ++ nl ++
          "                                 Where reports go" ++ nl)
         "")
  /\ help_text documented_entry "wide [args]" (flags Wide.parser)
     = "Usage: wide [args]" ++ nl ++
       "  --output-directory-for-reports ARG" ++ nl ++
       "                                Where reports go" ++ nl
  /\ print_help_page Wide.parser "wide [args]" Wide.start
     <> Returns tt (mkWorld tt (help_text documented_entry "wide [args]" (flags Wide.parser)) "").
Proof.
  split; [vm_compute; reflexivity|]. split; [vm_compute; reflexivity|].
  split; [vm_compute; reflexivity|]. vm_compute. discriminate.
Qed.

(** * Further properties of the code *)

(** ** The registry: [Parser::add] and the lookup of [parse] *)

Section Registry.

Context {State : Type}.

Lemma find_if_app (pred : Flag State -> bool) (xs ys : list (Flag State)) :
  find_if pred (xs ++ ys)
  = match find_if pred xs with
    | Some f => Some f
    | None => find_if pred ys
    end.
Proof.
  induction xs as [|x xs IH]; simpl; [reflexivity|].
  destruct (pred x); [reflexivity | exact IH].
Qed.

Lemma find_if_first_inv (pred : Flag State -> bool) (fs before after : list (Flag State))
    (f : Flag State) :
  fs = (before ++ f :: after)%list ->
  (forall g, In g before -> pred g = false) -> pred f = true ->
  find_if pred fs = Some f.
Proof. intros ->. apply find_if_first. Qed.

(** X1.  The lookup of [parse] finds the first flag, in the order of
    registration, that carries the name: [find_long p name] is [spec]
    exactly when [spec] stands in the registry with long name [name] behind
    flags that all have another long name, and likewise for short names. *)
Theorem lookup_is_first_registered (p : Parser State) :
  (forall (name : string) (spec : Flag State),
      find_long p name = Some spec
      <-> exists before after,
            flags p = (before ++ spec :: after)%list
            /\ long_name spec = name
            /\ forall g, In g before -> long_name g <> name)
  /\ (forall (c : ascii) (spec : Flag State),
         find_short p c = Some spec
         <-> exists before after,
               flags p = (before ++ spec :: after)%list
               /\ short_name spec = c
               /\ forall g, In g before -> short_name g <> c).
Proof.
  split.
  - intros name spec. split.
    + intros H. apply find_if_some in H as (before & after & Hfl & Hb & Hs).
      exists before, after. split; [exact Hfl|]. split; [now apply String.eqb_eq|].
      intros g Hg. apply String.eqb_neq. now apply Hb.
    + intros (before & after & Hfl & Hs & Hb). unfold find_long.
      apply (find_if_first_inv _ _ before after); [exact Hfl | | now apply String.eqb_eq].
      intros g Hg. apply String.eqb_neq. now apply Hb.
  - intros c spec. split.
    + intros H. apply find_if_some in H as (before & after & Hfl & Hb & Hs).
      exists before, after. split; [exact Hfl|]. split; [now apply Ascii.eqb_eq|].
      intros g Hg. apply Ascii.eqb_neq. now apply Hb.
    + intros (before & after & Hfl & Hs & Hb). unfold find_short.
      apply (find_if_first_inv _ _ before after); [exact Hfl | | now apply Ascii.eqb_eq].
      intros g Hg. apply Ascii.eqb_neq. now apply Hb.
Qed.

(** X2.  [add] puts the flag behind the registered ones, so it never
    changes what a registered name resolves to: after [add g p] a name that
    [p] resolves still resolves to the same flag, and [g] is found only for
    a name that [p] does not know.  A flag added under a name that is taken
    is never found under it. *)
Theorem add_keeps_registered_names (p : Parser State) (g : Flag State) :
  (forall name : string,
      find_long (add g p) name
      = match find_long p name with
        | Some spec => Some spec
        | None => if String.eqb (long_name g) name then Some g else None
        end)
  /\ (forall c : ascii,
         find_short (add g p) c
         = match find_short p c with
           | Some spec => Some spec
           | None => if Ascii.eqb (short_name g) c then Some g else None
           end).
Proof.
  split; intros x; unfold find_long, find_short, add; simpl flags; apply find_if_app.
Qed.

(** X3.  A flag built by a constructor without a short name is never found
    for a character other than ['\0'], and a flag built by a constructor
    without a long name is never found for a name that is not empty. *)
Theorem one_sided_flags_stay_on_their_side (p : Parser State) :
  (forall (c : ascii) (spec : Flag State),
      c <> NUL -> find_short p c = Some spec ->
      forall (s desc : string) (f : M State unit) (g : string -> M State unit),
        spec <> Flag_long s desc f /\ spec <> Flag_long_arg s desc g)
  /\ (forall (name : string) (spec : Flag State),
         name <> "" -> find_long p name = Some spec ->
         forall (c : ascii) (desc : string) (f : M State unit) (g : string -> M State unit),
           spec <> Flag_short c desc f /\ spec <> Flag_short_arg c desc g).
Proof.
  split.
  - intros c spec Hc Hf s desc f g. apply find_if_in in Hf as [_ Hs].
    apply Ascii.eqb_eq in Hs. split; intros ->; apply Hc; symmetry; exact Hs.
  - intros name spec Hn Hf c desc f g. apply find_if_in in Hf as [_ Hs].
    apply String.eqb_eq in Hs. split; intros ->; apply Hn; symmetry; exact Hs.
Qed.

End Registry.

(** ** Tokens that carry no value and tokens that are no options *)

Section Plain.

Context {State : Type}.
Variable p : Parser State.
Variable prog : string.

(** X4.  A long option that takes no value is called with the empty
    argument whatever its token spells after an ['=']: the attached text is
    dropped, and the token that follows is not taken either. *)
Theorem flag_drops_attached_value (name : string) (spec : Flag State) (rest : list string) :
  occurs "=" name = false ->
  find_long p name = Some spec -> expects_value spec = false ->
  (forall value : string,
      valid ("--" ++ name ++ "=" ++ value) ->
      parse p (prog :: ("--" ++ name ++ "=" ++ value) :: rest)
      =~ (invoke p spec "" ;; parse p (prog :: rest)))
  /\ (valid ("--" ++ name) -> name <> "" ->
      parse p (prog :: ("--" ++ name) :: rest)
      =~ (invoke p spec "" ;; parse p (prog :: rest))).
Proof.
  intros Hn Hf He. split.
  - intros value Hv. unfold parse.
    change ("--" ++ name ++ "=" ++ value) with (long_option name (Some value)) in *.
    apply long_flag; [exact Hv | exact Hn | right; discriminate | exact Hf | exact He].
  - intros Hv Hne. unfold parse.
    assert (E : "--" ++ name = long_option name None)
      by (unfold long_option; now rewrite append_nil_r).
    rewrite E in *.
    apply long_flag; [exact Hv | exact Hn | now left | exact Hf | exact He].
Qed.

(** X5.  Tokens that are no options are passed over wherever [parse]
    reaches them: a run of tokens that pass no test of [parse] in front of
    the remaining arguments changes nothing, and an argument list made of
    such tokens only makes [parse] return with the world as it was,
    whatever the flags are. *)
Theorem arguments_without_options_are_ignored (others : list string) :
  Forall (fun arg => is_other_token arg = true) others ->
  (forall args : list string,
      parse p (prog :: others ++ args) =~ parse p (prog :: args))
  /\ (forall w : World State, parse p (prog :: others) w = Returns tt w).
Proof.
  intros Hothers.
  assert (Hskip : forall args, parse p (prog :: others ++ args) =~ parse p (prog :: args)).
  { unfold parse. induction Hothers as [|arg others Harg _ IH]; intros args w; [reflexivity|].
    unfold is_other_token in Harg. apply andb_true_iff in Harg as [Hl Hs].
    apply negb_true_iff in Hl, Hs. simpl app.
    rewrite (parse_loop_skip p prog arg (others ++ args) Hl Hs w). apply IH. }
  split; [exact Hskip|].
  intros w. rewrite <- (app_nil_r others). rewrite (Hskip [] w). reflexivity.
Qed.

End Plain.

(** ** The cut of a long token *)

Section LongTokens.

Context {State : Type}.

Lemma starts_with_dashes (arg : string) :
  sv.starts_with arg "--" = true -> exists t, arg = "--" ++ t.
Proof.
  destruct arg as [|a [|b t]]; simpl; try discriminate.
  - rewrite andb_false_r. discriminate.
  - rewrite andb_true_r. intros H. apply andb_true_iff in H as [Ha Hb].
    apply Ascii.eqb_eq in Ha, Hb. subst. now exists t.
Qed.

Lemma split_at_first (ch : ascii) (s : string) :
  occurs ch s = true ->
  exists a b, s = a ++ String ch b /\ occurs ch a = false.
Proof.
  induction s as [|x s IH]; simpl; [discriminate|].
  destruct (Ascii.eqb x ch) eqn:E.
  - intros _. apply Ascii.eqb_eq in E. subst. now exists "", s.
  - simpl. intros H. destruct (IH H) as (a & b & -> & Ha).
    exists (String x a), b. split; [reflexivity|]. simpl. now rewrite E, Ha.
Qed.

(** X6.  What [parse] cuts out of a long token puts the token together
    again: the token is [--], the identifier, and, when it contains an
    ['='], the ['='] and the text after the first one.  The identifier
    never contains an ['='], so a flag whose long name contains one is never
    found for a long token. *)
Theorem long_token_is_ident_and_value (arg : string) :
  valid arg -> is_long_token arg = true ->
  occurs "=" (long_ident arg) = false
  /\ arg = long_option (long_ident arg)
             (if sv.contains arg "=" then Some (long_optarg arg) else None)
  /\ forall (p : Parser State) (spec : Flag State),
       find_long p (long_ident arg) = Some spec -> occurs "=" (long_name spec) = false.
Proof.
  intros Hv Hl. unfold is_long_token in Hl. apply andb_true_iff in Hl as [_ Hd].
  destruct (starts_with_dashes arg Hd) as [t ->].
  assert (Hcut : occurs "=" (long_ident ("--" ++ t)) = false
                 /\ "--" ++ t
                    = long_option (long_ident ("--" ++ t))
                        (if sv.contains ("--" ++ t) "=" then Some (long_optarg ("--" ++ t))
                         else None)).
  { destruct (occurs "=" t) eqn:Ht.
    - destruct (split_at_first "=" t Ht) as (name & value & -> & Hn).
      change ("--" ++ name ++ String "=" value) with ("--" ++ name ++ "=" ++ value) in *.
      rewrite long_ident_attached, contains_attached, long_optarg_attached by assumption.
      split; [exact Hn | reflexivity].
    - rewrite long_ident_detached, contains_detached by assumption.
      split; [exact Ht|]. unfold long_option. now rewrite append_nil_r. }
  destruct Hcut as [Hident Hround]. split; [exact Hident|]. split; [exact Hround|].
  intros p spec Hf. apply find_if_in in Hf as [_ Hs]. apply String.eqb_eq in Hs.
  now rewrite Hs.
Qed.

End LongTokens.

(** ** What [parse] does to the world *)

Section Runs.

Context {State : Type}.
Variable p : Parser State.
Variable prog : string.

(** [shaped m]: the computation [m] is a list of regular calls followed by a
    return or by a diagnostic and [std::exit(1)]. *)
Let shaped {X : Type} (m : M State X) : Prop :=
  exists calls,
    Forall (regular_call p) calls
    /\ ((exists x, m =~ (run p calls ;; ret x))
        \/ (exists line, diagnostic prog line /\ m =~ (run p calls ;; put_cerr line ;; exit 1))).

Lemma run_app (xs ys : list (Flag State * string)) :
  run p (xs ++ ys) =~ (run p xs ;; run p ys).
Proof.
  induction xs as [|[spec optarg] xs IH]; simpl.
  - intros w. reflexivity.
  - eapply same_trans; [|apply same_sym, bind_assoc].
    apply bind_same; [apply same_refl | intros _; exact IH].
Qed.

Lemma then_same {X : Type} (m : M State unit) (k1 k2 : M State X) :
  k1 =~ k2 -> (m ;; k1) =~ (m ;; k2).
Proof. intros H. apply bind_same; [apply same_refl | intros _; exact H]. Qed.

Lemma shaped_same {X : Type} (m m' : M State X) : m =~ m' -> shaped m' -> shaped m.
Proof.
  intros Hm (calls & Hc & [[x Hx]|(line & Hd & Hx)]); exists calls; (split; [exact Hc|]).
  - left. exists x. eapply same_trans; eassumption.
  - right. exists line. split; [exact Hd|]. eapply same_trans; eassumption.
Qed.

Lemma shaped_ret {X : Type} (x : X) : shaped (ret x).
Proof.
  exists []. split; [constructor|]. left. exists x. intros w. reflexivity.
Qed.

Lemma shaped_diagnostic {X : Type} (line : string) :
  diagnostic prog line -> shaped (X := X) (put_cerr line ;; exit 1).
Proof.
  intros Hd. exists []. split; [constructor|]. right. exists line.
  split; [exact Hd|]. intros w. reflexivity.
Qed.

Lemma shaped_bind {X Y : Type} (m : M State X) (k : X -> M State Y) :
  shaped m -> (forall x, shaped (k x)) -> shaped (x <- m ;; k x).
Proof.
  intros (calls & Hc & [[x Hx]|(line & Hd & Hx)]) Hk.
  - destruct (Hk x) as (calls' & Hc' & H').
    exists (calls ++ calls')%list. split; [now apply Forall_app|].
    assert (Hm : (y <- m ;; k y) =~ (run p calls ;; k x)).
    { eapply same_trans; [apply bind_same; [exact Hx | intros y; apply same_refl]|].
      eapply same_trans; [apply bind_assoc|]. apply same_refl. }
    destruct H' as [[y Hy]|(line & Hd & Hy)].
    + left. exists y. eapply same_trans; [exact Hm|].
      eapply same_trans; [apply then_same; exact Hy|].
      eapply same_trans; [apply same_sym, bind_assoc|].
      apply bind_same; [apply same_sym, run_app | intros ?; apply same_refl].
    + right. exists line. split; [exact Hd|]. eapply same_trans; [exact Hm|].
      eapply same_trans; [apply then_same; exact Hy|].
      eapply same_trans; [apply same_sym, bind_assoc|].
      apply bind_same; [apply same_sym, run_app | intros ?; apply same_refl].
  - exists calls. split; [exact Hc|]. right. exists line. split; [exact Hd|].
    eapply same_trans; [apply bind_same; [exact Hx | intros y; apply same_refl]|].
    eapply same_trans; [apply bind_assoc|].
    apply bind_same; [apply same_refl | intros _ w; reflexivity].
Qed.

Lemma shaped_invoke (pred : Flag State -> bool) (spec : Flag State) (optarg : string) :
  find_if pred (flags p) = Some spec ->
  (expects_value spec = false -> optarg = "") ->
  shaped (invoke p spec optarg).
Proof.
  intros Hf Ho. apply find_if_in in Hf as [Hin _].
  exists [(spec, optarg)]. split; [constructor; [now split | constructor]|].
  left. exists tt. intros w. simpl run. unfold bind.
  destruct (invoke p spec optarg w) as [[] w'|]; reflexivity.
Qed.

Lemma shaped_parse_long (arg : string) (rest : list string) :
  shaped (parse_long p prog arg rest).
Proof.
  unfold parse_long. destruct (find_long p (long_ident arg)) as [spec|] eqn:Hf.
  - destruct (expects_value spec) eqn:He.
    + destruct (sv.contains arg "=").
      * destruct (sv.size (long_optarg arg) =? 0).
        -- apply shaped_diagnostic. constructor.
        -- apply shaped_bind; [|intros _; apply shaped_ret].
           eapply shaped_invoke; [exact Hf | congruence].
      * destruct rest as [|next rest'].
        -- apply shaped_diagnostic. constructor.
        -- apply shaped_bind; [|intros _; apply shaped_ret].
           eapply shaped_invoke; [exact Hf | congruence].
    + apply shaped_bind; [|intros _; apply shaped_ret].
      eapply shaped_invoke; [exact Hf | reflexivity].
  - apply shaped_diagnostic. constructor.
Qed.

Lemma shaped_parse_short (flag : string) (rest : list string) :
  shaped (parse_short p prog flag rest).
Proof.
  induction flag as [|c flag' IH]; simpl; [apply shaped_ret|].
  destruct (find_short p c) as [spec|] eqn:Hf.
  - destruct (expects_value spec) eqn:He.
    + destruct (sv.size flag' =? 0); unfold negb.
      * destruct rest as [|next rest'].
        -- apply shaped_diagnostic. constructor.
        -- apply shaped_bind; [|intros _; apply shaped_ret].
           eapply shaped_invoke; [exact Hf | congruence].
      * apply shaped_bind; [|intros _; apply shaped_ret].
        eapply shaped_invoke; [exact Hf | congruence].
    + apply shaped_bind; [|intros _; exact IH].
      eapply shaped_invoke; [exact Hf | reflexivity].
  - apply shaped_diagnostic. constructor.
Qed.

Lemma shaped_parse_token (arg : string) (rest : list string) :
  shaped (parse_token p prog arg rest).
Proof.
  unfold parse_token. destruct (is_long_token arg); [apply shaped_parse_long|].
  destruct ((2 <=? sv.size arg) && sv.starts_with_char arg "-");
    [apply shaped_parse_short | apply shaped_ret].
Qed.

Lemma shaped_parse_loop_bounded (n : nat) (args : list string) :
  (List.length args <= n)%nat -> shaped (parse_loop p prog args).
Proof.
  revert args. induction n as [|n IH]; intros args Hlen.
  - destruct args; [apply shaped_ret | simpl in Hlen; lia].
  - destruct args as [|arg rest]; [apply shaped_ret|]. simpl in Hlen.
    simpl parse_loop. apply shaped_bind; [apply shaped_parse_token|].
    intros [|].
    + destruct rest as [|next rest']; [apply shaped_ret|]. apply IH. simpl in Hlen. lia.
    + apply IH. lia.
Qed.

(** X7.  Whatever the world is, [parse] does the same thing: it calls
    callbacks of registered flags one after the other, a flag that takes no
    value always with the empty argument, and then either returns or writes
    one diagnostic to the error stream and exits with status 1.  Which
    callbacks it calls, with which arguments, depends on the flags and on
    the arguments only; [parse] itself writes nothing else and changes
    nothing. *)
Theorem parse_is_a_run_of_callbacks (args : list string) :
  exists calls,
    Forall (regular_call p) calls
    /\ (parse p (prog :: args) =~ run p calls
        \/ exists line,
             diagnostic prog line
             /\ parse p (prog :: args) =~ (run p calls ;; put_cerr line ;; exit 1)).
Proof.
  destruct (shaped_parse_loop_bounded (List.length args) args (le_n _))
    as (calls & Hc & [[[] Hx]|H]); exists calls; (split; [exact Hc|]).
  - left. unfold parse. eapply same_trans; [exact Hx|].
    intros w. unfold bind, ret. destruct (run p calls w) as [[] w'|]; reflexivity.
  - right. exact H.
Qed.

End Runs.

Section Frame.

Context {State : Type}.
Variable p : Parser State.

(** What holds from one world to a later one. *)
Variable R : World State -> World State -> Prop.
Hypothesis R_refl : forall w, R w w.
Hypothesis R_trans : forall w1 w2 w3, R w1 w2 -> R w2 w3 -> R w1 w3.
Hypothesis R_callbacks :
  forall spec optarg w w',
    In spec (flags p) -> invoke p spec optarg w = Returns tt w' -> R w w'.

Lemma run_returns (calls : list (Flag State * string)) (w w' : World State) :
  Forall (regular_call p) calls -> run p calls w = Returns tt w' -> R w w'.
Proof.
  intros Hc. revert w. induction Hc as [|[spec optarg] calls [Hin _] _ IH]; intros w.
  - intros [= <-]. apply R_refl.
  - simpl run. unfold bind. destruct (invoke p spec optarg w) as [[] w1|] eqn:Hi; [|discriminate].
    intros H. apply (R_trans w w1 w'); [now apply (R_callbacks spec optarg) | now apply IH].
Qed.

Lemma parse_loop_returns (prog : string) (args : list string) (w w' : World State) :
  parse_loop p prog args w = Returns tt w' -> R w w'.
Proof.
  destruct (shaped_parse_loop_bounded p prog (List.length args) args (le_n _))
    as (calls & Hc & [[[] Hx]|(line & _ & Hx)]); rewrite Hx; unfold bind.
  - destruct (run p calls w) as [[] w1|] eqn:Hr; [|discriminate].
    intros [= <-]. now apply (run_returns calls).
  - destruct (run p calls w); discriminate.
Qed.

(** X8.  When [parse] returns, the world has changed through callbacks
    only: a relation between worlds that is reflexive and transitive and
    that every callback of a registered flag keeps when it returns holds
    between the world before [parse] and the world after it. *)
Theorem parse_changes_the_world_through_callbacks_only
    (argv : list string) (w w' : World State) :
  parse p argv w = Returns tt w' -> R w w'.
Proof.
  destruct argv as [|prog' args]; simpl parse.
  - intros [= <-]. apply R_refl.
  - apply parse_loop_returns.
Qed.

End Frame.

(** ** The help option and the help page *)

Section Help.

Context {State : Type}.

Lemma print_help_page_text (p : Parser State) (usage : string) (w : World State) :
  print_help_page p usage w
  = Returns tt (mkWorld (user w) (cout w ++ help_text aligned_entry usage (flags p)) (cerr w)).
Proof.
  unfold print_help_page, bind, put_cout.
  rewrite print_help_entries_text. cbn [user cout cerr].
  rewrite (map_ext _ _ help_entry_aligned).
  unfold help_text. now rewrite !append_assoc.
Qed.

Lemma flags_add_all (more : list (Flag State)) (p : Parser State) :
  flags (add_all more p) = (flags p ++ more)%list.
Proof.
  unfold add_all. revert p. induction more as [|g more IH]; intros p; simpl.
  - now rewrite app_nil_r.
  - rewrite IH. simpl flags. now rewrite <- app_assoc.
Qed.

Lemma find_help_flag (pred : Flag State -> bool) (usage : string)
    (more : list (Flag State)) (p : Parser State) :
  find_if pred (flags p) = None -> pred (help_flag usage) = true ->
  find_if pred (flags (add_all more (add_help usage p))) = Some (help_flag usage).
Proof.
  intros Hnone Hhelp. rewrite flags_add_all. unfold add_help, add. simpl flags.
  rewrite !find_if_app, Hnone. simpl find_if.
  change (mkFlag "h"%char "help" "Print help" false (HelpPage usage)) with (help_flag (State := State) usage).
  now rewrite Hhelp.
Qed.

(** X9.  After [add_help], the options [--help] and [-h] print the help
    page and exit with status 1 without looking at a later token, as long
    as no flag registered before takes the name.  The page is the one of
    the registry at the time of the call: it lists the flags added after
    [add_help] as well. *)
Theorem help_option_prints_the_whole_registry
    (p : Parser State) (usage : string) (more : list (Flag State))
    (prog : string) (rest : list string) (w : World State) :
  (find_long p "help" = None ->
   parse (add_all more (add_help usage p)) (prog :: "--help" :: rest) w
   = Exits 1 (mkWorld (user w)
                (cout w ++ help_text aligned_entry usage
                             (flags p ++ help_flag usage :: more)%list)
                (cerr w)))
  /\ (find_short p "h" = None ->
      parse (add_all more (add_help usage p)) (prog :: "-h" :: rest) w
      = Exits 1 (mkWorld (user w)
                   (cout w ++ help_text aligned_entry usage
                                (flags p ++ help_flag usage :: more)%list)
                   (cerr w))).
Proof.
  set (q := add_all more (add_help usage p)).
  assert (Hq : flags q = (flags p ++ help_flag usage :: more)%list).
  { unfold q. rewrite flags_add_all. unfold add_help, add. simpl flags.
    now rewrite <- app_assoc. }
  assert (Hinvoke : invoke q (help_flag usage) "" w
                    = Exits 1 (mkWorld (user w)
                                 (cout w ++ help_text aligned_entry usage
                                              (flags p ++ help_flag usage :: more)%list)
                                 (cerr w))).
  { change (invoke q (help_flag usage) "" w)
      with ((print_help_page q usage ;; exit (X := unit) 1) w).
    unfold bind. rewrite print_help_page_text, Hq. reflexivity. }
  split.
  - intros Hnone.
    assert (Hf : find_long q "help" = Some (help_flag usage))
      by (apply find_help_flag; [exact Hnone | reflexivity]).
    assert (Hv : valid (long_option "help" None)) by size_fits.
    assert (Hne : "help" <> "" \/ @None string <> None) by (left; discriminate).
    pose proof (long_flag q prog "help" None (help_flag usage) rest
                  Hv eq_refl Hne Hf eq_refl w) as H.
    unfold bind in H. rewrite Hinvoke in H. exact H.
  - intros Hnone.
    assert (Hf : find_short q "h" = Some (help_flag usage))
      by (apply find_help_flag; [exact Hnone | reflexivity]).
    assert (Hc : combined q "h" [help_flag usage])
      by (constructor; [exact Hf | reflexivity | constructor]).
    assert (Hv : valid ("-" ++ "h")) by size_fits.
    pose proof (short_combined q prog "h" [help_flag usage] rest Hv eq_refl Hc w) as H.
    simpl fire in H. unfold bind in H. rewrite Hinvoke in H. exact H.
Qed.

Lemma print_help_entries_app (fs gs : list (Flag State)) :
  print_help_entries (fs ++ gs) =~ (print_help_entries fs ;; print_help_entries gs).
Proof.
  induction fs as [|f fs IH]; simpl.
  - intros w. reflexivity.
  - eapply same_trans; [|apply same_sym, bind_assoc].
    apply bind_same; [apply same_refl | intros ?; exact IH].
Qed.

(** X10.  A flag that is added last comes last on the help page: the page
    after [add f p] is the page of [p] followed by the entry of [f]. *)
Theorem help_page_grows_at_the_end (p : Parser State) (f : Flag State) (usage : string) :
  print_help_page (add f p) usage
  =~ (print_help_page p usage ;; put_cout (help_entry f)).
Proof.
  unfold print_help_page, add. simpl flags.
  eapply same_trans; [|apply same_sym, bind_assoc].
  apply bind_same; [apply same_refl | intros ?].
  eapply same_trans; [apply print_help_entries_app|].
  apply bind_same; [apply same_refl | intros ? w].
  simpl. unfold bind. destruct (put_cout (help_entry f) w) as [[] w'|]; reflexivity.
Qed.

(** X11.  The width of the left-hand column: two for the indent, two for a
    short name, two for the comma when the flag has both names, two and the
    length of the long name for a long name, four for [ARG].  So the entry
    of a flag whose long name has at most 20 characters always fits on one
    line. *)
Theorem left_column_width (f : Flag State) :
  sv.size (help_lhs f)
  = 2
    + (if Ascii.eqb (short_name f) NUL then 0 else 2)
    + (if negb (Ascii.eqb (short_name f) NUL) && negb (String.eqb (long_name f) "")
       then 2 else 0)
    + (if String.eqb (long_name f) "" then 0 else 2 + sv.size (long_name f))
    + (if expects_value f then 4 else 0)
  /\ (sv.size (long_name f) <= 20 ->
      help_entry f
      = help_lhs f ++ sv.fill (lhs_max - sv.size (help_lhs f)) " " ++ " "
        ++ description f ++ nl).
Proof.
  assert (Hw : sv.size (help_lhs f)
               = 2
                 + (if Ascii.eqb (short_name f) NUL then 0 else 2)
                 + (if negb (Ascii.eqb (short_name f) NUL)
                       && negb (String.eqb (long_name f) "")
                    then 2 else 0)
                 + (if String.eqb (long_name f) "" then 0 else 2 + sv.size (long_name f))
                 + (if expects_value f then 4 else 0)).
  { unfold help_lhs, sv.empty.
    destruct (Ascii.eqb (short_name f) NUL); destruct (long_name f) as [|a long];
      destruct (expects_value f); simpl negb; simpl andb; cbv iota;
      try change (sv.size "" =? 0) with true;
      try (rewrite (proj2 (Z.eqb_neq (sv.size (String a long)) 0))
            by (rewrite size_String; pose proof (size_nonneg long); lia));
      cbv iota; simpl String.eqb; cbv iota;
      rewrite ?size_append, ?size_String;
      repeat match goal with
             | |- context [sv.size ?s] =>
                 lazymatch s with
                 | String _ _ => rewrite (size_String _ _)
                 | EmptyString => change (sv.size "") with 0
                 end
             end;
      lia. }
  split; [exact Hw|].
  intros Hlong. unfold help_entry.
  assert (Hfit : (sv.size (help_lhs f) <=? lhs_max) = true).
  { apply Z.leb_le. rewrite Hw. unfold lhs_max.
    pose proof (size_nonneg (long_name f)).
    destruct (Ascii.eqb (short_name f) NUL); destruct (String.eqb (long_name f) "");
      destruct (expects_value f); cbn [negb andb]; lia. }
  now rewrite Hfit.
Qed.

End Help.

(** ** The two programs *)

Lemma grows_refl {State : Type} (w : World State) : grows w w.
Proof. split; [reflexivity|]. exists "". now rewrite append_nil_r. Qed.

Lemma grows_user {State : Type} (w : World State) (u : State) :
  grows w (mkWorld u (cout w) (cerr w)).
Proof. split; [reflexivity|]. exists "". simpl. now rewrite append_nil_r. Qed.

Lemma grows_trans {State : Type} (w1 w2 w3 : World State) :
  grows w1 w2 -> grows w2 w3 -> grows w1 w3.
Proof.
  intros [He1 [o1 Ho1]] [He2 [o2 Ho2]]. split; [congruence|].
  exists (o1 ++ o2). now rewrite Ho2, Ho1, append_assoc.
Qed.

Lemma grows_put_cout {State : Type} (s : string) (w w' : World State) :
  put_cout s w = Returns tt w' -> grows w w'.
Proof. intros [= <-]. split; [reflexivity|]. now exists s. Qed.

Lemma help_page_exits {State : Type} (p : Parser State) (usage optarg : string)
    (w : World State) :
  invoke p (help_flag usage) optarg w
  = Exits 1 (mkWorld (user w) (cout w ++ help_text aligned_entry usage (flags p)) (cerr w)).
Proof.
  change (invoke p (help_flag usage) optarg w)
    with ((print_help_page p usage ;; exit (X := unit) 1) w).
  unfold bind. now rewrite print_help_page_text.
Qed.

Lemma example_flags :
  flags Example.parser
  = [Example.flag_f; Example.flag_filename; Example.flag_p; help_flag "example [args]"].
Proof. reflexivity. Qed.

Lemma example_callbacks_grow (spec : Flag Example.Vars) (optarg : string)
    (w w' : World Example.Vars) :
  In spec (flags Example.parser) ->
  invoke Example.parser spec optarg w = Returns tt w' -> grows w w'.
Proof.
  rewrite example_flags. intros [<-|[<-|[<-|[<-|[]]]]].
  - intros [= <-]. apply grows_user.
  - intros [= <-]. apply grows_user.
  - apply grows_put_cout.
  - rewrite help_page_exits. discriminate.
Qed.

Lemma example_callbacks_exit (spec : Flag Example.Vars) (optarg : string)
    (w w' : World Example.Vars) (status : Z) :
  In spec (flags Example.parser) ->
  invoke Example.parser spec optarg w = Exits status w' -> status = 1.
Proof.
  rewrite example_flags. intros [<-|[<-|[<-|[<-|[]]]]]; try discriminate.
  rewrite help_page_exits. now intros [= <- _].
Qed.

(** X12.  [main] of the usage example.  When it returns, nothing has been
    written to the error stream, and the last two lines of the output
    report the flag and the file name as the callbacks left them.  When it
    ends early, on the help option or on a diagnostic, the status is 1. *)
Theorem example_main_outcome (argv : list string) (w : World Example.Vars) :
  (forall w',
      Example.main argv w = Returns tt w' ->
      cerr w' = cerr w
      /\ exists out,
           cout w'
           = cout w ++ out
             ++ "flag: " ++ Example.show_bool (Example.flag (user w')) ++ nl
             ++ "filename: " ++ Example.filename (user w') ++ nl)
  /\ (forall status w', Example.main argv w = Exits status w' -> status = 1).
Proof.
  unfold Example.main, bind.
  set (w0 := mkWorld (Example.mkVars false "") (cout w) (cerr w)).
  destruct (parse Example.parser argv w0) as [[] w1|st w1] eqn:Hp.
  - split; [|discriminate]. intros w' [= <-].
    assert (Hg : grows w0 w1).
    { destruct argv as [|prog args]; [injection Hp as <-; apply grows_refl|].
      exact (parse_loop_returns Example.parser grows grows_refl grows_trans
               example_callbacks_grow prog args w0 w1 Hp). }
    destruct Hg as [He [out Ho]]. cbn [user cout cerr]. split; [exact He|].
    exists out. rewrite Ho. cbn [cout w0].
    rewrite !append_assoc. simpl. rewrite ?append_assoc. reflexivity.
  - split; [discriminate|]. intros status w' [= <- <-].
    destruct argv as [|prog args]; [discriminate|].
    destruct (parse_loop_exit Example.parser prog args w0 st w1 Hp)
      as [(spec & optarg & w2 & Hin & Hi)|[Hs _]]; [|exact Hs].
    exact (example_callbacks_exit spec optarg w2 w1 st Hin Hi).
Qed.

Lemma example2_flags :
  flags Example2.parser
  = [Example2.flag_a; Example2.flag_bee; Example2.flag_c; Example2.flag_d;
     Example2.flag_ee; Example2.flag_f; help_flag "example [-abc] [-def ARG]"].
Proof. reflexivity. Qed.

Lemma example2_callbacks_grow (spec : Flag bool) (optarg : string) (w w' : World bool) :
  In spec (flags Example2.parser) ->
  invoke Example2.parser spec optarg w = Returns tt w' -> grows w w'.
Proof.
  rewrite example2_flags. intros [<-|[<-|[<-|[<-|[<-|[<-|[<-|[]]]]]]]];
    try apply grows_put_cout.
  - intros [= <-]. split; [reflexivity|]. now exists ("a" ++ nl).
  - rewrite help_page_exits. discriminate.
Qed.

Lemma example2_callbacks_exit (spec : Flag bool) (optarg : string) (w w' : World bool)
    (status : Z) :
  In spec (flags Example2.parser) ->
  invoke Example2.parser spec optarg w = Exits status w' -> status = 1.
Proof.
  rewrite example2_flags. intros [<-|[<-|[<-|[<-|[<-|[<-|[<-|[]]]]]]]]; try discriminate.
  rewrite help_page_exits. now intros [= <- _].
Qed.

(** X13.  [main] of the second example.  When it returns, nothing has been
    written to the error stream and the last line of the output reports
    [a_flag]; when it ends early the status is 1. *)
Theorem example2_main_outcome (argv : list string) (w : World bool) :
  (forall w',
      Example2.main argv w = Returns tt w' ->
      cerr w' = cerr w
      /\ exists out,
           cout w' = cout w ++ out ++ "a_flag: " ++ (if user w' then "1" else "0") ++ nl)
  /\ (forall status w', Example2.main argv w = Exits status w' -> status = 1).
Proof.
  unfold Example2.main, bind.
  set (w0 := mkWorld false (cout w) (cerr w)).
  destruct (parse Example2.parser argv w0) as [[] w1|st w1] eqn:Hp.
  - split; [|discriminate]. intros w' [= <-].
    assert (Hg : grows w0 w1).
    { destruct argv as [|prog args]; [injection Hp as <-; apply grows_refl|].
      exact (parse_loop_returns Example2.parser grows grows_refl grows_trans
               example2_callbacks_grow prog args w0 w1 Hp). }
    destruct Hg as [He [out Ho]]. cbn [user cout cerr]. split; [exact He|].
    exists out. rewrite Ho. cbn [cout w0].
    rewrite !append_assoc. simpl. rewrite ?append_assoc. reflexivity.
  - split; [discriminate|]. intros status w' [= <- <-].
    destruct argv as [|prog args]; [discriminate|].
    destruct (parse_loop_exit Example2.parser prog args w0 st w1 Hp)
      as [(spec & optarg & w2 & Hin & Hi)|[Hs _]]; [|exact Hs].
    exact (example2_callbacks_exit spec optarg w2 w1 st Hin Hi).
Qed.

(** ** The further properties on the programs of the repository *)

(** [--filename] and [-p] in the registry of the usage example. *)
Lemma lookup_is_first_registered_run :
  find_long Example.parser "filename" = Some Example.flag_filename
  /\ find_short Example.parser "p" = Some Example.flag_p.
Proof.
  destruct (lookup_is_first_registered Example.parser) as [Hlong Hshort]. split.
  - apply Hlong.
    exists [Example.flag_f], [Example.flag_p; help_flag "example [args]"].
    split; [reflexivity|]. split; [reflexivity|]. intros g [<-|[]]; discriminate.
  - apply Hshort.
    exists [Example.flag_f; Example.flag_filename], [help_flag "example [args]"].
    split; [reflexivity|]. split; [reflexivity|]. intros g [<-|[<-|[]]]; discriminate.
Defined.

(** What [-p] and [--flag] resolve to in the usage example was not built
    without the name. *)
Lemma one_sided_flags_stay_on_their_side_run :
  (forall (s desc : string) (f : M Example.Vars unit) (g : string -> M Example.Vars unit),
      Example.flag_p <> Flag_long s desc f /\ Example.flag_p <> Flag_long_arg s desc g)
  /\ (forall (c : ascii) (desc : string) (f : M Example.Vars unit)
             (g : string -> M Example.Vars unit),
         Example.flag_f <> Flag_short c desc f /\ Example.flag_f <> Flag_short_arg c desc g).
Proof.
  destruct (one_sided_flags_stay_on_their_side Example.parser) as [Hshort Hlong]. split.
  - apply (Hshort "p"%char Example.flag_p); [discriminate | reflexivity].
  - apply (Hlong "flag" Example.flag_f); [discriminate | reflexivity].
Defined.

(** [example --flag=yes] and [example --flag] both set the flag. *)
Lemma flag_drops_attached_value_run :
  parse Example.parser ["example"; "--flag=yes"]
  =~ (invoke Example.parser Example.flag_f "" ;; parse Example.parser ["example"])
  /\ parse Example.parser ["example"; "--flag"]
     =~ (invoke Example.parser Example.flag_f "" ;; parse Example.parser ["example"]).
Proof.
  destruct (flag_drops_attached_value Example.parser "example" "flag" Example.flag_f [])
    as [Hattached Hplain]; [reflexivity | reflexivity | reflexivity |].
  split.
  - apply (Hattached "yes"). size_fits.
  - apply Hplain; [size_fits | discriminate].
Defined.

(** [example a.txt "" -] does nothing. *)
Lemma arguments_without_options_are_ignored_run :
  parse Example.parser ["example"; "a.txt"; ""; "-"] Example.start = Returns tt Example.start.
Proof.
  apply (arguments_without_options_are_ignored Example.parser "example" ["a.txt"; ""; "-"]).
  repeat constructor.
Defined.

(** The cut of [--filename=a=b]. *)
Lemma long_token_is_ident_and_value_run :
  occurs "=" (long_ident "--filename=a=b") = false
  /\ "--filename=a=b"
     = long_option (long_ident "--filename=a=b")
         (if sv.contains "--filename=a=b" "=" then Some (long_optarg "--filename=a=b")
          else None).
Proof.
  destruct (long_token_is_ident_and_value (State := unit) "--filename=a=b")
    as (Hident & Hround & _); [size_fits | reflexivity |].
  split; [exact Hident | exact Hround].
Defined.

(** [example -fp x] leaves the error stream alone. *)
Lemma parse_changes_the_world_through_callbacks_only_run :
  grows Example.start (mkWorld (Example.mkVars true "") ("x" ++ nl) "").
Proof.
  apply (parse_changes_the_world_through_callbacks_only Example.parser grows
           grows_refl grows_trans example_callbacks_grow ["example"; "-fp"; "x"]).
  vm_compute. reflexivity.
Defined.

(** A parser with [-f, --flag], then the help flag, then [-p]: the page
    that [--help] and [-h] print lists all three. *)
Lemma help_option_prints_the_whole_registry_run :
  parse (add_all [Example.flag_p] (add_help "usage" (add Example.flag_f new_parser)))
    ["example"; "--help"; "-p"] Example.start
  = Exits 1 (mkWorld (Example.mkVars false "")
               (help_text aligned_entry "usage"
                  [Example.flag_f; help_flag "usage"; Example.flag_p])
               "")
  /\ parse (add_all [Example.flag_p] (add_help "usage" (add Example.flag_f new_parser)))
       ["example"; "-h"; "-p"] Example.start
     = Exits 1 (mkWorld (Example.mkVars false "")
                  (help_text aligned_entry "usage"
                     [Example.flag_f; help_flag "usage"; Example.flag_p])
                  "").
Proof.
  destruct (help_option_prints_the_whole_registry (add Example.flag_f new_parser)
              "usage" [Example.flag_p] "example" ["-p"] Example.start) as [Hlong Hshort].
  split; [apply Hlong | apply Hshort]; reflexivity.
Defined.

(** The entry of [--filename ARG] fits on one line. *)
Lemma left_column_width_run :
  help_entry Example.flag_filename
  = help_lhs Example.flag_filename
    ++ sv.fill (lhs_max - sv.size (help_lhs Example.flag_filename)) " " ++ " "
    ++ description Example.flag_filename ++ nl.
Proof.
  destruct (left_column_width Example.flag_filename) as [_ Hfits].
  apply Hfits. vm_compute. discriminate.
Defined.

(** [example -f] returns after its report. *)
Lemma example_main_outcome_run :
  let w' := mkWorld (Example.mkVars true "") ("flag: 1" ++ nl ++ "filename: " ++ nl) "" in
  cerr w' = cerr Example.start
  /\ exists out,
       cout w'
       = cout Example.start ++ out
         ++ "flag: " ++ Example.show_bool (Example.flag (user w')) ++ nl
         ++ "filename: " ++ Example.filename (user w') ++ nl.
Proof.
  destruct (example_main_outcome ["example"; "-f"] Example.start) as [Hreturns _].
  intros w'. apply Hreturns. vm_compute. reflexivity.
Defined.

(** [example2 -a] returns after its report. *)
Lemma example2_main_outcome_run :
  let w' := mkWorld true ("a" ++ nl ++ "a_flag: 1" ++ nl) "" in
  cerr w' = cerr Example2.start
  /\ exists out,
       cout w' = cout Example2.start ++ out ++ "a_flag: " ++ (if user w' then "1" else "0") ++ nl.
Proof.
  destruct (example2_main_outcome ["example"; "-a"] Example2.start) as [Hreturns _].
  intros w'. apply Hreturns. vm_compute. reflexivity.
Defined.
